(** * GeoExt: the print-map panel and the WMS legend of the legend-panel example

  A shallow embedding of
  - [geoext/lib/GeoExt/widgets/PrintMapPanel.js] ([GeoExt.PrintMapPanel]) and
  - [examples/legendpanel.js] ([GisArts.WMSLegend]),
  and the properties of the two that the specification states.

  Conventions.
  - A JavaScript number is a rational ([Q]); the methods embedded here only
    compare resolutions ([<], [===]), so the order of the finite numbers is
    all that matters.  A value that may be
    [undefined] is an [option]: comparing [undefined] with [<] or [===]
    against a number is [false], as in JavaScript.
  - Array indices that the code computes with [Math.min], [Math.max] and
    [indexOf] are integers ([Z]); reading an array outside its bounds gives
    [undefined] ([None]).
  - The toolkits the code calls (OpenLayers, Ext JS) are interfaces: records
    of functions and type classes, never fixed implementations. *)

From Stdlib Require Import QArith Qround ZArith Lia.
From stdpp Require Import base option list strings gmap.

Local Open Scope Z_scope.

(** ** JavaScript values *)

Module Js.

(** A number, or [undefined]. *)
Definition Num : Type := option Q.

(** [a < b]: false as soon as one side is [undefined]. *)
Definition lt (a b : Num) : bool :=
  match a, b with
  | Some x, Some y => negb (Qle_bool y x)
  | _, _ => false
  end.

(** [a === b] on numbers. *)
Definition strict_eq (a b : Num) : bool :=
  match a, b with
  | Some x, Some y => Qeq_bool x y
  | None, None => true
  | _, _ => false
  end.

(** [array[i]] for an integer [i]: [undefined] outside [0 .. length-1]. *)
Definition get {A : Type} (array : list A) (i : Z) : option A :=
  if (i <? 0)%Z then None else array !! Z.to_nat i.

(** [array.indexOf(x)]: the first index holding [x], or [-1]. *)
Fixpoint indexOfFrom (array : list Q) (x : Num) (i : Z) : Z :=
  match array with
  | [] => -1
  | y :: rest => if strict_eq (Some y) x then i else indexOfFrom rest x (i + 1)
  end.

Definition indexOf (array : list Q) (x : Num) : Z := indexOfFrom array x 0.

(** What [indexOfFrom array x i] may return: [-1] when no entry is [===] to
    [x], or an index [k] counted from [i] at which the array holds a number
    that is [===] to [x]. *)
Definition indexOfFrom_result (array : list Q) (x : Num) (i k : Z) : Prop :=
  (k = (-1)%Z /\ forall y, In y array -> strict_eq (Some y) x = false)
  \/ exists y, array !! Z.to_nat (k - i) = Some y
             /\ (i <= k)%Z /\ (k < i + Z.of_nat (length array))%Z
             /\ strict_eq (Some y) x = true.

(** [Math.max(a, b)] on two numbers. *)
Definition max (a b : Q) : Q := if Qle_bool a b then b else a.

(** What a callback returns, as far as the iterators look at it. *)
Inductive Ret := RetUndefined | RetFalse.

End Js.

(** ** Ext JS *)

Module Ext.

(** [Ext.each(array, fn, scope)] and [store.each(fn, scope)]: call [fn] on
    every element in order, threading the state the callback mutates; the
    iteration stops as soon as a call returns [false]. *)
Fixpoint each {A S : Type} (array : list A) (fn : A -> S -> S * Js.Ret) (st : S) : S :=
  match array with
  | [] => st
  | x :: rest =>
      match fn x st with
      | (st', Js.RetFalse) => st'
      | (st', Js.RetUndefined) => each rest fn st'
      end
  end.

End Ext.

(** ** OpenLayers, as far as the panel uses it *)

Module OpenLayers.

Definition Units : Type := string.

(** A layer: the two methods the panel calls. *)
Class Layer (L : Type) := {
  clone : L -> L;
  getVisibility : L -> bool
}.

(** The map that is printed ([sourceMap]). *)
Record Map (L : Type) := {
  layers : list L;
  getUnits : Units;
  getZoomForResolution : Js.Num -> Z;
  getResolutionForZoom : Z -> Q
}.
Arguments layers {L}.
Arguments getUnits {L}.
Arguments getZoomForResolution {L}.
Arguments getResolutionForZoom {L}.

(** [OpenLayers.Util]. *)
Class Util := {
  getResolutionFromScale : Q -> Units -> Q
}.

(** The map the panel itself shows ([this.map]), as a state [M] with the
    methods the panel calls on it.  [zoomTo z m] is the map after the call and
    [zoomTo_moveend z m] the number of "moveend" events the call triggers
    before it returns. *)
Class View (M : Type) := {
  getZoom : M -> Z;
  getResolution : M -> Js.Num;
  baseLayer_units : M -> Units;
  zoomTo : Z -> M -> M;
  zoomTo_moveend : Z -> M -> nat
}.

End OpenLayers.

(** ** GeoExt.data: the print provider's scales and the print page *)

Module PrintData.

(** A record of the [printProvider.scales] store. *)
Record Scale := { name : string; value : Q }.

(** [GeoExt.data.PrintPage] as a state [P].  [fit m pg] is the page after
    [printPage.fit(map, true)] and [fit_change m pg] the number of "change"
    events that call fires before it returns. *)
Class PrintPage (M P : Type) := {
  scale : P -> Scale;
  fit : M -> P -> P;
  fit_change : M -> P -> nat
}.

End PrintData.

(** ** GeoExt.PrintMapPanel *)

Module PrintMapPanel.

Import PrintData.

(** What the panel asks of its collaborators, in the order of the calls. *)
Inductive Call :=
| CallZoomTo (zoom : Z)          (* this.map.zoomTo(zoom) *)
| CallFit                        (* this.printPage.fit(this.map, true) *)
| Moveend (guard : bool).        (* updatePage entered; [guard] is [this._updating] *)

Section Panel.

Context {L M P : Type}.
Context `{!OpenLayers.Layer L} `{!OpenLayers.Util} `{!OpenLayers.View M} `{!PrintPage M P}.

(** The fields of the panel that the methods below read and write.  [calls]
    is not a field of the JavaScript object: it records the calls made to the
    map and to the print page, oldest first. *)
Record Panel := {
  sourceMap : OpenLayers.Map L;
  scales : list Scale;                (* printProvider.scales *)
  printResolutions : list Q;
  layers : list L;
  map : M;
  printPage : P;
  _updating : bool;                   (* true, or deleted *)
  calls : list Call
}.

Definition set_printResolutions (rs : list Q) (p : Panel) : Panel :=
  {| sourceMap := sourceMap p; scales := scales p; printResolutions := rs;
     layers := layers p; map := map p; printPage := printPage p;
     _updating := _updating p; calls := calls p |}.

Definition set_layers (ls : list L) (p : Panel) : Panel :=
  {| sourceMap := sourceMap p; scales := scales p;
     printResolutions := printResolutions p; layers := ls; map := map p;
     printPage := printPage p; _updating := _updating p; calls := calls p |}.

Definition set_map (m : M) (p : Panel) : Panel :=
  {| sourceMap := sourceMap p; scales := scales p;
     printResolutions := printResolutions p; layers := layers p; map := m;
     printPage := printPage p; _updating := _updating p; calls := calls p |}.

Definition set_printPage (pg : P) (p : Panel) : Panel :=
  {| sourceMap := sourceMap p; scales := scales p;
     printResolutions := printResolutions p; layers := layers p; map := map p;
     printPage := pg; _updating := _updating p; calls := calls p |}.

Definition set_updating (b : bool) (p : Panel) : Panel :=
  {| sourceMap := sourceMap p; scales := scales p;
     printResolutions := printResolutions p; layers := layers p; map := map p;
     printPage := printPage p; _updating := b; calls := calls p |}.

Definition record (c : Call) (p : Panel) : Panel :=
  {| sourceMap := sourceMap p; scales := scales p;
     printResolutions := printResolutions p; layers := layers p; map := map p;
     printPage := printPage p; _updating := _updating p;
     calls := calls p ++ [c] |}.

(** *** updatePrintResolutions *)

(** The body of the callback given to [scales.each]. *)
Definition updatePrintResolutions_fn (units : OpenLayers.Units)
    (s : Scale) (p : Panel) : Panel * Js.Ret :=
  let res := OpenLayers.getResolutionFromScale (value s) units in
  let zoom := OpenLayers.getZoomForResolution (sourceMap p) (Some res) in
  (set_printResolutions
     (printResolutions p ++ [OpenLayers.getResolutionForZoom (sourceMap p) zoom]) p,
   Js.RetUndefined).

Definition updatePrintResolutions (p : Panel) : Panel :=
  let p := set_printResolutions [] p in
  let units := OpenLayers.getUnits (sourceMap p) in
  Ext.each (scales p) (updatePrintResolutions_fn units) p.

(** What the specification asks of one scale: its resolution, then the zoom
    level of the source map for that resolution, then the resolution of that
    zoom level. *)
Definition snap (m : OpenLayers.Map L) (s : Scale) : Q :=
  OpenLayers.getResolutionForZoom m
    (OpenLayers.getZoomForResolution m
       (Some (OpenLayers.getResolutionFromScale (value s) (OpenLayers.getUnits m)))).

(** *** getZoomForResolution *)

(** The [for] loop: the value of [i] when the loop is left, having started at
    [i] on the entries [rs]. *)
Fixpoint scanFrom (rs : list Q) (resolution : Js.Num) (i : Z) : Z :=
  match rs with
  | [] => i
  | r :: rest =>
      if Js.lt (Some r) resolution then i else scanFrom rest resolution (i + 1)
  end.

Definition scan (rs : list Q) (resolution : Js.Num) : Z := scanFrom rs resolution 0.

(** [this.printResolutions[Math.max(0, i-1)]]. *)
Definition selectedResolution (rs : list Q) (resolution : Js.Num) : Js.Num :=
  Js.get rs (Z.max 0 (scan rs resolution - 1)).

Definition getZoomForResolution (p : Panel) (resolution : Js.Num) : Z :=
  OpenLayers.getZoomForResolution (sourceMap p)
    (selectedResolution (printResolutions p) resolution).

(** *** The layers of the preview map (initComponent) *)

Definition copyLayer_fn (layer : L) (p : Panel) : Panel * Js.Ret :=
  let c := OpenLayers.clone layer in
  (if OpenLayers.getVisibility layer then set_layers (layers p ++ [c]) p else p,
   Js.RetUndefined).

Definition copyLayers (p : Panel) : Panel :=
  let p := set_layers [] p in
  Ext.each (OpenLayers.layers (sourceMap p)) copyLayer_fn p.

(** *** Events

    Listeners run inside the call that fires the event.  A listener is a
    function on the panel state that may run out of fuel ([None]). *)
Definition Listener : Type := Panel -> option Panel.

(** Fire an event [n] times, one after the other. *)
Fixpoint fire (n : nat) (listener : Listener) (p : Panel) : option Panel :=
  match n with
  | O => Some p
  | S n => p' ← listener p; fire n listener p'
  end.

(** [this.map.zoomTo(zoom)], with [moveend] the listener registered for the
    map's "moveend" event. *)
Definition map_zoomTo (moveend : Listener) (zoom : Z) (p : Panel) : option Panel :=
  let n := OpenLayers.zoomTo_moveend zoom (map p) in
  let p := set_map (OpenLayers.zoomTo zoom (map p)) (record (CallZoomTo zoom) p) in
  fire n moveend p.

(** [this.printPage.fit(this.map, true)], with [change] the listener
    registered for the page's "change" event. *)
Definition printPage_fit (change : Listener) (p : Panel) : option Panel :=
  let n := fit_change (map p) (printPage p) in
  let p := set_printPage (fit (map p) (printPage p)) (record CallFit p) in
  fire n change p.

(** *** fitZoom and updatePage *)

Definition fitZoom_with (moveend : Listener) (p : Panel) : option Panel :=
  let zoom :=
    getZoomForResolution p
      (Some (OpenLayers.getResolutionFromScale
               (value (scale (printPage p)))
               (OpenLayers.baseLayer_units (map p)))) in
  let p := set_updating true p in
  p ← (if (OpenLayers.getZoom (map p) =? zoom)%Z then Some p
       else map_zoomTo moveend zoom p);
  Some (set_updating false p).

Definition updatePage_with (change : Listener) (p : Panel) : option Panel :=
  let p := record (Moveend (_updating p)) p in
  if _updating p then Some p else printPage_fit change p.

(** The wiring of initComponent: [fitZoom] listens to the page's "change",
    [updatePage] to the map's "moveend".  [fuel] bounds the nesting of
    listeners. *)
Fixpoint updatePage (fuel : nat) (p : Panel) : option Panel :=
  match fuel with
  | O => None
  | S fuel => updatePage_with (fitZoom_with (updatePage fuel)) p
  end.

Definition fitZoom (fuel : nat) (p : Panel) : option Panel :=
  fitZoom_with (updatePage fuel) p.

(** The zoom level [fitZoom] computes from the scale of the page, and the
    calls one run of [fitZoom] is expected to add: none when the map is at
    that zoom level already, else the [zoomTo] and, for each "moveend" it
    triggers, an [updatePage] that finds the guard set. *)
Definition fitZoom_zoom (p : Panel) : Z :=
  getZoomForResolution p
    (Some (OpenLayers.getResolutionFromScale
             (value (scale (printPage p)))
             (OpenLayers.baseLayer_units (map p)))).

Definition fitZoom_calls (p : Panel) : list Call :=
  if (OpenLayers.getZoom (map p) =? fitZoom_zoom p)%Z then []
  else CallZoomTo (fitZoom_zoom p)
       :: repeat (Moveend true) (OpenLayers.zoomTo_moveend (fitZoom_zoom p) (map p)).

(** A call that does not touch the page: anything but a [fit], and an
    [updatePage] only if it found the guard set. *)
Definition guarded (c : Call) : bool :=
  match c with
  | CallZoomTo _ => true
  | CallFit => false
  | Moveend guard => guard
  end.

(** *** The zoomIn and zoomOut overrides of the preview map *)

Definition zoomIn_index (rs : list Q) (current : Js.Num) : Z :=
  Z.min (Js.indexOf rs current + 1) (Z.of_nat (length rs) - 1).

Definition zoomOut_index (rs : list Q) (current : Js.Num) : Z :=
  Z.max (Js.indexOf rs current - 1) 0.

(** The argument of [me.getZoomForResolution] in each override. *)
Definition zoomIn_resolution (rs : list Q) (current : Js.Num) : Js.Num :=
  Js.get rs (zoomIn_index rs current).

Definition zoomOut_resolution (rs : list Q) (current : Js.Num) : Js.Num :=
  Js.get rs (zoomOut_index rs current).

Definition zoomIn (fuel : nat) (p : Panel) : option Panel :=
  let current := OpenLayers.getResolution (map p) in
  map_zoomTo (updatePage fuel)
    (getZoomForResolution p (zoomIn_resolution (printResolutions p) current)) p.

Definition zoomOut (fuel : nat) (p : Panel) : option Panel :=
  let current := OpenLayers.getResolution (map p) in
  map_zoomTo (updatePage fuel)
    (getZoomForResolution p (zoomOut_resolution (printResolutions p) current)) p.

(** *** The zoomToMaxExtent override and the initial zoom (initComponent) *)

(** The zoom level that the zoomToMaxExtent override hands to [setCenter]. *)
Definition zoomToMaxExtent_zoom (p : Panel) : Z :=
  getZoomForResolution p (Js.get (printResolutions p) 0).

(** [idealResolution], from the two quotients [extent.getWidth() / this.width]
    and [extent.getHeight() / this.height] as they were computed, and the
    value given to [this.zoom]. *)
Definition idealResolution (widthRatio heightRatio : Q) : Q :=
  Js.max widthRatio heightRatio.

Definition initial_zoom (p : Panel) (widthRatio heightRatio : Q) : Z :=
  getZoomForResolution p (Some (idealResolution widthRatio heightRatio)).

End Panel.

Arguments Panel : clear implicits.

(** Several calls recorded one after the other. *)
Definition record_all {L M P : Type} (cs : list Call) (p : Panel L M P)
    : Panel L M P :=
  fold_left (fun q c => record c q) cs p.

(** The calls to [printPage.fit] among the calls recorded. *)
Definition isFit (c : Call) : bool :=
  match c with
  | CallFit => true
  | _ => false
  end.

Definition fits (cs : list Call) : nat := length (List.filter isFit cs).

(** The entries of a list never increase: coarsest resolution first. *)
Fixpoint descending (rs : list Q) : bool :=
  match rs with
  | [] => true
  | x :: rest =>
      match rest with
      | [] => true
      | y :: _ => Qle_bool y x && descending rest
      end
  end.

(** The entries of a list decrease strictly: no resolution occurs twice. *)
Fixpoint strictly_descending (rs : list Q) : bool :=
  match rs with
  | [] => true
  | x :: rest =>
      match rest with
      | [] => true
      | y :: _ => negb (Qle_bool x y) && strictly_descending rest
      end
  end.

End PrintMapPanel.


(** ** OpenLayers.Layer.WMS, as far as the legend uses it *)

Module WMS.

(** A value of a request parameter. *)
Inductive Param :=
| PString (s : string)
| PNumber (x : Q)
| PNumbers (xs : list Q)           (* bounds.toArray(...) *)
| PNames (names : list string).    (* a list of layer names *)

Record Size := { w : Q; h : Q }.

(** [OpenLayers.Bounds]. *)
Class Bounds (B : Type) := {
  toBBOX : B -> bool -> string;    (* bounds.toBBOX(null, reverseAxisOrder) *)
  toArray : B -> bool -> list Q    (* bounds.toArray(reverseAxisOrder) *)
}.

(** The map a layer is attached to. *)
Record Map (B : Type) := {
  getExtent : option B             (* null before the first view is set *)
}.
Arguments getExtent {B}.

Record Layer (B : Type) := {
  map : option (Map B);                      (* null when not attached *)
  legendLayers : option (list string);       (* undefined unless configured *)
  params : gmap string Param;                (* layer.params *)
  encodeBBOX : bool;
  adjustBounds : B -> B;
  getImageSize : B -> Size;
  reverseAxisOrder : bool;
  getFullRequestString : gmap string Param -> string
}.
Arguments map {B}.
Arguments legendLayers {B}.
Arguments params {B}.
Arguments encodeBBOX {B}.
Arguments adjustBounds {B}.
Arguments getImageSize {B}.
Arguments reverseAxisOrder {B}.
Arguments getFullRequestString {B}.

(** Modelled from the spec: the parameters of the request string that
    [layer.getFullRequestString(newParams)] builds (OpenLayers, not part of
    the sources): the parameters given take precedence, and a parameter
    that is not given keeps the layer's own value, so that the request names
    "only those sublayer names, otherwise all layer names". *)
Definition requestParams {B : Type} (layer : Layer B)
    (newParams : gmap string Param) : gmap string Param :=
  newParams ∪ params layer.

End WMS.

(** ** GisArts.WMSLegend *)

Module WMSLegend.

(** What a method call ends in: a value, or a [TypeError] (a property of
    [null] is read, or a method that the object does not have is called). *)
Inductive Outcome (A : Type) :=
| Ok (a : A)
| TypeError.
Arguments Ok {A}.
Arguments TypeError {A}.

Definition bind {A B : Type} (o : Outcome A) (k : A -> Outcome B) : Outcome B :=
  match o with
  | Ok a => k a
  | TypeError => TypeError
  end.

(** A component of the legend: the title label, or a legend image with its
    URL ([undefined] when none was computed). *)
Inductive Item :=
| Label (text : string)
| LegendImage (url : option string).

(** [item.isXType('label')]. *)
Definition isXType_label (item : Item) : bool :=
  match item with
  | Label _ => true
  | LegendImage _ => false
  end.

(** [cmp.setUrl(url)]: a label has no such method. *)
Definition setUrl (url : option string) (cmp : Item) : Outcome Item :=
  match cmp with
  | Label _ => TypeError
  | LegendImage _ => Ok (LegendImage url)
  end.

(** [items.find(fn)]: the first item for which [fn] holds, or [null].  An
    item is identified by its position in the collection. *)
Fixpoint findFrom (fn : Item -> bool) (items : list Item) (i : nat) : option nat :=
  match items with
  | [] => None
  | item :: rest => if fn item then Some i else findFrom fn rest (S i)
  end.

Definition find (fn : Item -> bool) (items : list Item) : option nat :=
  findFrom fn items 0.

Section Legend.

Context {B : Type} `{!WMS.Bounds B}.

Record Legend := {
  getLayer : option (WMS.Layer B);     (* this.layerRecord.getLayer() *)
  items : list Item
}.

Definition set_items (its : list Item) (lg : Legend) : Legend :=
  {| getLayer := getLayer lg; items := its |}.

(** [GeoExt.WMSLegend.superclass.update], which is [GeoExt.LayerLegend]'s. *)
Class LayerLegend := {
  superclass_update : Legend -> Legend
}.

(** *** getLegendUrl *)

(** The object [newParams] as it is when [getFullRequestString] is called. *)
Definition newParams (layer : WMS.Layer B) (extent : B) : gmap string WMS.Param :=
  let bounds := WMS.adjustBounds layer extent in
  let imageSize := WMS.getImageSize layer bounds in
  let reverseAxisOrder := WMS.reverseAxisOrder layer in
  let np : gmap string WMS.Param := ∅ in
  let np :=
    <["BBOX" := if WMS.encodeBBOX layer
                then WMS.PString (WMS.toBBOX bounds reverseAxisOrder)
                else WMS.PNumbers (WMS.toArray bounds reverseAxisOrder)]> np in
  let np := <["WIDTH" := WMS.PNumber (WMS.w imageSize)]> np in
  let np := <["HEIGHT" := WMS.PNumber (WMS.h imageSize)]> np in
  let np := <["REQUEST" := WMS.PString "GetLegendGraphic"]> np in
  match WMS.legendLayers layer with
  | Some names => <["LAYERS" := WMS.PNames names]> np
  | None => np
  end.

(** The parameters the legend request is made with, when one is made. *)
Definition legendParams (layer : WMS.Layer B) : option (gmap string WMS.Param) :=
  match WMS.map layer with
  | Some m =>
      match WMS.getExtent m with
      | Some extent => Some (newParams layer extent)
      | None => None
      end
  | None => None
  end.

Definition getLegendUrl_of (layer : WMS.Layer B) : option string :=
  WMS.getFullRequestString layer <$> legendParams layer.

Definition getLegendUrl (lg : Legend) : Outcome (option string) :=
  match getLayer lg with
  | Some layer => Ok (getLegendUrl_of layer)
  | None => TypeError                  (* layer.map with layer null *)
  end.

(** *** update *)

(** The callback of [this.items.each]: [i] is the position of [cmp] and
    [textCmp] the position of the label, if there is one; the state is the
    list of the items already visited and the flag [found]. *)
Definition setUrl_fn (lg : Legend) (textCmp : option nat) (i : nat) (cmp : Item)
    (st : list Item * bool) : Outcome (list Item * bool) :=
  let '(done, found) := st in
  if decide (textCmp = Some i) then Ok (done ++ [cmp], found)
  else
    bind (getLegendUrl lg) (fun url =>
    bind (setUrl url cmp) (fun cmp' =>
    Ok (done ++ [cmp'], true))).

Fixpoint eachFrom (lg : Legend) (textCmp : option nat) (i : nat) (its : list Item)
    (st : list Item * bool) : Outcome (list Item * bool) :=
  match its with
  | [] => Ok st
  | cmp :: rest =>
      bind (setUrl_fn lg textCmp i cmp st) (eachFrom lg textCmp (S i) rest)
  end.

(** The part of [update] after the inherited update: the label is set apart,
    every other item gets the legend URL, and an image is added when there
    was no other item. *)
Definition reconcileLegendItems (lg : Legend) : Outcome Legend :=
  let textCmp := find isXType_label (items lg) in
  bind (eachFrom lg textCmp 0 (items lg) ([], false)) (fun '(its, found) =>
  if found then Ok (set_items its lg)
  else bind (getLegendUrl lg) (fun url =>
       Ok (set_items (its ++ [LegendImage url]) lg))).

Definition update `{!LayerLegend} (lg : Legend) : Outcome Legend :=
  match getLayer lg with
  | Some layer =>
      match WMS.map layer with
      | Some _ => reconcileLegendItems (superclass_update lg)
      | None => Ok lg
      end
  | None => Ok lg
  end.

(** [update] ends with [this.doLayout()], which draws the items again and
    changes none of the fields above. *)

(** The same item with the URL [url], if it is an image. *)
Definition refresh (url : option string) (item : Item) : Item :=
  match item with
  | Label text => Label text
  | LegendImage _ => LegendImage url
  end.

(** The number of labels among the items, and whether there is an item that
    is not a label. *)
Definition labels (its : list Item) : nat :=
  length (List.filter isXType_label its).

Definition hasImage (its : list Item) : bool :=
  existsb (fun item => negb (isXType_label item)) its.

(** The URLs of the legend images, in the order of the items. *)
Definition imageUrls (its : list Item) : list (option string) :=
  omap (fun it => match it with
                  | LegendImage url => Some url
                  | Label _ => None
                  end) its.

End Legend.

Arguments Legend : clear implicits.
Arguments LayerLegend : clear implicits.

End WMSLegend.

(** ** A small concrete setting, on which the statements below are run *)

Module Demo.

Import PrintData.

Record DemoLayer := { title : string; visible : bool; cloned : bool }.

#[export] Instance demo_layer : OpenLayers.Layer DemoLayer := {
  clone l := {| title := title l; visible := visible l; cloned := true |};
  getVisibility := visible
}.

#[export] Instance demo_util : OpenLayers.Util := {
  getResolutionFromScale s _ := (s / 4)%Q
}.

(** A preview map that is just its zoom level, and fires one "moveend" per
    [zoomTo]. *)
#[export] Instance demo_view : OpenLayers.View Z := {
  getZoom z := z;
  getResolution z := Some (inject_Z z);
  baseLayer_units _ := "m"%string;
  zoomTo z _ := z;
  zoomTo_moveend _ _ := 1%nat
}.

(** A print page that is just its scale, and fires one "change" per [fit]. *)
#[export] Instance demo_page : PrintPage Z Scale := {
  scale pg := pg;
  fit z _ := {| name := "fit"; value := inject_Z (4 * z) |};
  fit_change _ _ := 1%nat
}.

Definition demo_layers : list DemoLayer :=
  [ {| title := "roads"; visible := true; cloned := false |};
    {| title := "labels"; visible := false; cloned := false |};
    {| title := "water"; visible := true; cloned := false |} ].

(** A source map whose zoom level [z] shows resolution [z]. *)
Definition demo_sourceMap : OpenLayers.Map DemoLayer := {|
  OpenLayers.layers := demo_layers;
  OpenLayers.getUnits := "m"%string;
  OpenLayers.getZoomForResolution r :=
    match r with Some x => Qfloor x | None => 0%Z end;
  OpenLayers.getResolutionForZoom z := inject_Z z
|}.

Definition demo_panel (rs : list Q) : PrintMapPanel.Panel DemoLayer Z Scale := {|
  PrintMapPanel.sourceMap := demo_sourceMap;
  PrintMapPanel.scales :=
    [ {| name := "1:400"; value := 400 |}; {| name := "1:200"; value := 200 |};
      {| name := "1:100"; value := 100 |}; {| name := "1:40"; value := 40 |} ];
  PrintMapPanel.printResolutions := rs;
  PrintMapPanel.layers := [];
  PrintMapPanel.map := 25%Z;
  PrintMapPanel.printPage := {| name := "1:200"; value := 200 |};
  PrintMapPanel._updating := false;
  PrintMapPanel.calls := []
|}.

(** The same panel before any scale is known. *)
Definition set_scales_demo (p : PrintMapPanel.Panel DemoLayer Z Scale)
    : PrintMapPanel.Panel DemoLayer Z Scale := {|
  PrintMapPanel.sourceMap := PrintMapPanel.sourceMap p;
  PrintMapPanel.scales := [];
  PrintMapPanel.printResolutions := PrintMapPanel.printResolutions p;
  PrintMapPanel.layers := PrintMapPanel.layers p;
  PrintMapPanel.map := PrintMapPanel.map p;
  PrintMapPanel.printPage := PrintMapPanel.printPage p;
  PrintMapPanel._updating := PrintMapPanel._updating p;
  PrintMapPanel.calls := PrintMapPanel.calls p
|}.

(** A WMS layer with the sublayers a, b, c.  Bounds are the list left,
    bottom, right, top. *)
#[export] Instance demo_bounds : WMS.Bounds (list Q) := {
  toBBOX _ _ := "0,0,600,400"%string;
  toArray b (reverse : bool) :=
    match b with
    | [l; b; r; t] => if reverse then [b; l; t; r] else [l; b; r; t]
    | _ => b
    end
}.

Definition demo_params : gmap string WMS.Param :=
  {[ "LAYERS"%string := WMS.PNames ["a"; "b"; "c"]%string ]}.

(** The request string: only the LAYERS parameter is written out. *)
Definition demo_request (np : gmap string WMS.Param) : string :=
  match (np ∪ demo_params) !! "LAYERS"%string with
  | Some (WMS.PNames names) => "wms?LAYERS=" +:+ String.concat "," names
  | _ => "wms?"
  end.

Definition demo_wms (m : option (WMS.Map (list Q)))
    (legendLayers : option (list string)) : WMS.Layer (list Q) := {|
  WMS.map := m;
  WMS.legendLayers := legendLayers;
  WMS.params := demo_params;
  WMS.encodeBBOX := false;
  WMS.adjustBounds b := b;
  WMS.getImageSize _ := {| WMS.w := 600; WMS.h := 400 |};
  WMS.reverseAxisOrder := false;
  WMS.getFullRequestString := demo_request
|}.

Definition demo_extent : list Q := [0; 0; 600; 400]%Q.

Definition demo_attached : option (WMS.Map (list Q)) :=
  Some {| WMS.getExtent := Some demo_extent |}.

Definition demo_no_extent : option (WMS.Map (list Q)) :=
  Some {| WMS.getExtent := None |}.

Definition demo_legend (layer : WMS.Layer (list Q)) (its : list WMSLegend.Item)
    : WMSLegend.Legend (list Q) :=
  {| WMSLegend.getLayer := Some layer; WMSLegend.items := its |}.

(** An inherited update that writes the title of the layer into the label. *)
#[export] Instance demo_layerLegend : WMSLegend.LayerLegend (list Q) := {
  superclass_update lg :=
    WMSLegend.set_items
      (match WMSLegend.items lg with
       | WMSLegend.Label _ :: rest => WMSLegend.Label "BGT" :: rest
       | its => its
       end) lg
}.

End Demo.

(** * Properties of the print-map panel *)

Module PrintMapPanelFacts.

Import PrintData PrintMapPanel.

(** ** Comparisons *)

Lemma lt_Some (x y : Q) : Js.lt (Some x) (Some y) = true <-> (x < y)%Q.
Proof.
  unfold Js.lt. rewrite negb_true_iff.
  split.
  - intros Hb. apply Qnot_le_lt. intros Hle.
    apply Qle_bool_iff in Hle. congruence.
  - intros Hlt. destruct (Qle_bool y x) eqn:E; [|reflexivity].
    apply Qle_bool_iff in E. exfalso. apply (Qlt_not_le _ _ Hlt E).
Qed.

Lemma lt_Some_false (x y : Q) : Js.lt (Some x) (Some y) = false <-> (y <= x)%Q.
Proof.
  unfold Js.lt. rewrite negb_false_iff. apply Qle_bool_iff.
Qed.

Lemma lt_undefined (a : Js.Num) : Js.lt a None = false.
Proof. destruct a; reflexivity. Qed.

(** ** Array reads *)

Lemma get_Some {A : Type} (l : list A) (i : Z) (x : A) :
  Js.get l i = Some x <-> (0 <= i)%Z /\ l !! Z.to_nat i = Some x.
Proof.
  unfold Js.get. destruct (Z.ltb_spec i 0); split.
  - discriminate.
  - intros [? _]. lia.
  - intros ?. split; [lia | assumption].
  - intros [_ ?]. assumption.
Qed.

Lemma get_in_range {A : Type} (l : list A) (i : Z) :
  (0 <= i < Z.of_nat (length l))%Z -> exists x, Js.get l i = Some x /\ In x l.
Proof.
  intros Hi.
  destruct (lookup_lt_is_Some_2 l (Z.to_nat i)) as [x Hx]; [lia|].
  exists x. split.
  - apply get_Some. split; [lia | exact Hx].
  - apply list_elem_of_In, list_elem_of_lookup. eauto.
Qed.

(** ** The scan of getZoomForResolution *)

Lemma scanFrom_shift (rs : list Q) (t : Js.Num) (i : Z) :
  scanFrom rs t i = (i + scan rs t)%Z.
Proof.
  unfold scan. revert i.
  induction rs as [|r rs IH]; intros i; cbn [scanFrom].
  - lia.
  - destruct (Js.lt (Some r) t); [lia|].
    rewrite (IH (i + 1)%Z), (IH (0 + 1)%Z). lia.
Qed.

Lemma scan_cons (r : Q) (rs : list Q) (t : Js.Num) :
  scan (r :: rs) t = if Js.lt (Some r) t then 0%Z else (1 + scan rs t)%Z.
Proof.
  unfold scan at 1. cbn [scanFrom]. destruct (Js.lt (Some r) t); [reflexivity|].
  apply scanFrom_shift.
Qed.

Lemma scan_bounds (rs : list Q) (t : Js.Num) :
  (0 <= scan rs t <= Z.of_nat (length rs))%Z.
Proof.
  induction rs as [|r rs IH].
  - unfold scan. simpl. lia.
  - rewrite scan_cons. simpl length. destruct (Js.lt (Some r) t); lia.
Qed.

(** The entry at which the scan stops is below the target ... *)
Lemma scan_stops (rs : list Q) (t : Q) (r : Q) :
  Js.get rs (scan rs (Some t)) = Some r -> (r < t)%Q.
Proof.
  induction rs as [|x rs IH]; rewrite get_Some.
  - intros [_ H]. rewrite lookup_nil in H. discriminate.
  - rewrite scan_cons. destruct (Js.lt (Some x) (Some t)) eqn:E.
    + intros [_ H]. simpl in H. injection H as <-. now apply lt_Some.
    + intros [_ H]. apply IH, get_Some.
      pose proof (scan_bounds rs (Some t)).
      split; [lia|].
      replace (Z.to_nat (1 + scan rs (Some t)))
        with (S (Z.to_nat (scan rs (Some t)))) in H by lia.
      exact H.
Qed.

(** ... and no entry before it is. *)
Lemma scan_before (rs : list Q) (t : Q) (j : nat) (r : Q) :
  (Z.of_nat j < scan rs (Some t))%Z -> rs !! j = Some r -> (t <= r)%Q.
Proof.
  revert j. induction rs as [|x rs IH]; intros j Hj Hr.
  - rewrite lookup_nil in Hr. discriminate.
  - rewrite scan_cons in Hj. destruct (Js.lt (Some x) (Some t)) eqn:E; [lia|].
    destruct j as [|j]; simpl in Hr.
    + injection Hr as <-. now apply lt_Some_false.
    + apply (IH j); [lia | exact Hr].
Qed.

(** A larger target stops the scan no later. *)
Lemma scan_antitone (rs : list Q) (t1 t2 : Q) :
  (t1 < t2)%Q -> (scan rs (Some t2) <= scan rs (Some t1))%Z.
Proof.
  intros Ht. induction rs as [|r rs IH].
  - unfold scan. simpl. lia.
  - rewrite !scan_cons.
    destruct (Js.lt (Some r) (Some t1)) eqn:E1.
    + apply lt_Some in E1.
      assert (E2 : Js.lt (Some r) (Some t2) = true)
        by (apply lt_Some; eapply Qlt_trans; eassumption).
      rewrite E2. lia.
    + pose proof (scan_bounds rs (Some t1)).
      destruct (Js.lt (Some r) (Some t2)); lia.
Qed.

(** ** Lists in descending order *)

Lemma descending_cons (x : Q) (rs : list Q) :
  descending (x :: rs) = true ->
  descending rs = true /\ forall y, In y rs -> (y <= x)%Q.
Proof.
  revert x. induction rs as [|y rs IH]; intros x H.
  - split; [reflexivity | intros ? []].
  - change (Qle_bool y x && descending (y :: rs) = true) in H.
    apply andb_true_iff in H as [Hyx Hd]. apply Qle_bool_iff in Hyx.
    split; [exact Hd|].
    intros z [<- | Hz]; [exact Hyx|].
    destruct (IH y Hd) as [_ Hall].
    eapply Qle_trans; [apply Hall, Hz | exact Hyx].
Qed.

Lemma descending_lookup (rs : list Q) (i j : nat) (x y : Q) :
  descending rs = true -> (i <= j)%nat ->
  rs !! i = Some x -> rs !! j = Some y -> (y <= x)%Q.
Proof.
  revert i j. induction rs as [|r rs IH]; intros i j Hd Hij Hi Hj.
  - rewrite lookup_nil in Hi. discriminate.
  - destruct (descending_cons _ _ Hd) as [Hd' Hall].
    destruct i as [|i], j as [|j]; simpl in Hi, Hj.
    + injection Hi as <-. injection Hj as <-. apply Qle_refl.
    + injection Hi as <-. apply Hall, list_elem_of_In, list_elem_of_lookup. eauto.
    + lia.
    + apply (IH i j); [exact Hd' | lia | exact Hi | exact Hj].
Qed.

(** ** The example of the specification *)

(** C1.  With the supported resolutions 100, 50, 25, 10 and the target 60, the
    scan stops at index 1, the first entry below 60 (which is 50); the entry
    before it, 100, is selected, and the zoom level returned is the one the
    source map gives for the resolution 100. *)
Theorem zoom_for_60 {L M P : Type} (p : Panel L M P) :
  printResolutions p = [100; 50; 25; 10]%Q ->
  scan (printResolutions p) (Some 60%Q) = 1%Z
  /\ Js.get (printResolutions p) 1 = Some 50%Q
  /\ Js.lt (Some 50%Q) (Some 60%Q) = true
  /\ selectedResolution (printResolutions p) (Some 60%Q) = Some 100%Q
  /\ getZoomForResolution p (Some 60%Q)
     = OpenLayers.getZoomForResolution (sourceMap p) (Some 100%Q).
Proof.
  intros Hrs. unfold getZoomForResolution. rewrite Hrs.
  repeat split; reflexivity.
Qed.

Lemma zoom_for_60_demo :
  scan [100; 50; 25; 10]%Q (Some 60%Q) = 1%Z
  /\ Js.get [100; 50; 25; 10]%Q 1 = Some 50%Q
  /\ Js.lt (Some 50%Q) (Some 60%Q) = true
  /\ selectedResolution [100; 50; 25; 10]%Q (Some 60%Q) = Some 100%Q
  /\ getZoomForResolution (Demo.demo_panel [100; 50; 25; 10]%Q) (Some 60%Q) = 100%Z.
Proof.
  exact (zoom_for_60 (Demo.demo_panel [100; 50; 25; 10]%Q) eq_refl).
Defined.

(** ** Monotonicity of the selected resolution *)

(** C2, as stated, fails: on the list 50, 100, 10 the target 20 selects 100
    and the larger target 60 selects 50. *)
Lemma zoom_not_monotone :
  (20 < 60)%Q
  /\ selectedResolution [50; 100; 10]%Q (Some 20%Q) = Some 100%Q
  /\ selectedResolution [50; 100; 10]%Q (Some 60%Q) = Some 50%Q
  /\ ~ (100 <= 50)%Q.
Proof.
  repeat split; try reflexivity.
  intros H. apply Qle_bool_iff in H. discriminate H.
Qed.

(** C2, amended.  When the supported resolutions are in descending order and
    there is at least one, both targets select a resolution, and the one
    selected for the smaller target is not above the one selected for the
    larger target. *)
Theorem zoom_monotone_descending (rs : list Q) (t1 t2 : Q) :
  rs <> [] -> descending rs = true -> (t1 < t2)%Q ->
  exists r1 r2,
    selectedResolution rs (Some t1) = Some r1
    /\ selectedResolution rs (Some t2) = Some r2
    /\ (r1 <= r2)%Q.
Proof.
  intros Hne Hd Ht.
  assert (Hlen : (0 < Z.of_nat (length rs))%Z)
    by (destruct rs; [congruence | simpl length; lia]).
  pose proof (scan_bounds rs (Some t1)) as B1.
  pose proof (scan_bounds rs (Some t2)) as B2.
  pose proof (scan_antitone rs t1 t2 Ht) as Hanti.
  unfold selectedResolution.
  destruct (get_in_range rs (Z.max 0 (scan rs (Some t1) - 1))) as (r1 & H1 & _); [lia|].
  destruct (get_in_range rs (Z.max 0 (scan rs (Some t2) - 1))) as (r2 & H2 & _); [lia|].
  exists r1, r2. repeat split; [exact H1 | exact H2 |].
  apply get_Some in H1 as [_ H1]. apply get_Some in H2 as [_ H2].
  eapply (descending_lookup rs); [exact Hd | | exact H2 | exact H1]. lia.
Qed.

Lemma zoom_monotone_demo :
  exists r1 r2,
    selectedResolution [100; 50; 25; 10]%Q (Some 20%Q) = Some r1
    /\ selectedResolution [100; 50; 25; 10]%Q (Some 60%Q) = Some r2
    /\ (r1 <= r2)%Q.
Proof.
  apply (zoom_monotone_descending [100; 50; 25; 10]%Q 20 60).
  - discriminate.
  - reflexivity.
  - reflexivity.
Defined.

(** On a list that is not empty the scan always selects one of its entries. *)
Lemma selected_in_list (rs : list Q) (t : Js.Num) :
  rs <> [] -> exists r, selectedResolution rs t = Some r /\ In r rs.
Proof.
  intros Hne. unfold selectedResolution. apply get_in_range.
  pose proof (scan_bounds rs t).
  destruct rs; [congruence | simpl length in *; lia].
Qed.

(** ** indexOf *)

Lemma indexOfFrom_spec (rs : list Q) (x : Js.Num) (i : Z) :
  (0 <= i)%Z ->
  Js.indexOfFrom_result rs x i (Js.indexOfFrom rs x i).
Proof.
  revert i. induction rs as [|y rs IH]; intros i Hi; cbn [Js.indexOfFrom].
  - left. split; [reflexivity | intros ? []].
  - destruct (Js.strict_eq (Some y) x) eqn:E.
    + right. exists y. replace (i - i)%Z with 0%Z by lia.
      repeat split; [lia | simpl length; lia | exact E].
    + destruct (IH (i + 1)%Z) as [[H Hall] | (z & Hr & Hlo & Hhi & Hz)]; [lia | |].
      { left. split; [exact H|]. intros z [<- | Hz]; [exact E | now apply Hall]. }
      right. exists z. simpl length. repeat split; [ | lia | lia | exact Hz].
      replace (Z.to_nat (Js.indexOfFrom rs x (i + 1) - i))
        with (S (Z.to_nat (Js.indexOfFrom rs x (i + 1) - (i + 1)))) by lia.
      exact Hr.
Qed.

Lemma indexOf_spec (rs : list Q) (x : Js.Num) :
  Js.indexOfFrom_result rs x 0 (Js.indexOf rs x).
Proof. apply indexOfFrom_spec. lia. Qed.

Section Loops.

Context {L M P : Type}.
Context `{!OpenLayers.Layer L} `{!OpenLayers.Util} `{!OpenLayers.View M} `{!PrintPage M P}.

(** ** updatePrintResolutions *)

Lemma each_updatePrintResolutions (units : OpenLayers.Units) (ss : list Scale)
    (p : Panel L M P) :
  Ext.each ss (updatePrintResolutions_fn units) p
  = set_printResolutions
      (printResolutions p
       ++ List.map (fun s =>
            OpenLayers.getResolutionForZoom (sourceMap p)
              (OpenLayers.getZoomForResolution (sourceMap p)
                 (Some (OpenLayers.getResolutionFromScale (value s) units)))) ss) p.
Proof.
  revert p. induction ss as [|s ss IH]; intros p; cbn [Ext.each List.map].
  - rewrite app_nil_r. now destruct p.
  - unfold updatePrintResolutions_fn at 1. rewrite IH.
    destruct p; cbn. now rewrite <- app_assoc.
Qed.

(** C5.  After [updatePrintResolutions] the list of print resolutions is the
    list of scales with every scale snapped through the zoom ladder of the
    source map (resolution of the scale, zoom level for it, resolution of
    that zoom level): one entry per scale, in the order of the scales. *)
Theorem updatePrintResolutions_snaps (p : Panel L M P) :
  printResolutions (updatePrintResolutions p)
  = List.map (snap (sourceMap p)) (scales p)
  /\ length (printResolutions (updatePrintResolutions p)) = length (scales p)
  /\ forall i : nat,
       printResolutions (updatePrintResolutions p) !! i
       = snap (sourceMap p) <$> scales p !! i.
Proof.
  assert (E : printResolutions (updatePrintResolutions p)
              = List.map (snap (sourceMap p)) (scales p)).
  { unfold updatePrintResolutions. rewrite each_updatePrintResolutions.
    reflexivity. }
  split; [exact E|]. rewrite E. split.
  - apply List.length_map.
  - intros i. apply list_lookup_fmap.
Qed.

(** ** The layers of the preview map *)

Lemma each_copyLayer (ls : list L) (p : Panel L M P) :
  Ext.each ls copyLayer_fn p
  = set_layers
      (layers p ++ List.map OpenLayers.clone (List.filter OpenLayers.getVisibility ls)) p.
Proof.
  revert p. induction ls as [|l ls IH]; intros p; cbn [Ext.each List.filter].
  - cbn. rewrite app_nil_r. now destruct p.
  - unfold copyLayer_fn at 1. rewrite IH.
    destruct (OpenLayers.getVisibility l); destruct p; cbn; [|reflexivity].
    now rewrite <- app_assoc.
Qed.

(** C10.  The layers of the preview map are the clones of the visible layers
    of the source map, in the order of the source map; a layer that is not
    visible leaves no copy, and the source map, its list of layers included,
    is as it was. *)
Theorem copyLayers_visible (p : Panel L M P) :
  layers (copyLayers p)
  = List.map OpenLayers.clone
      (List.filter OpenLayers.getVisibility (OpenLayers.layers (sourceMap p)))
  /\ sourceMap (copyLayers p) = sourceMap p
  /\ OpenLayers.layers (sourceMap (copyLayers p)) = OpenLayers.layers (sourceMap p).
Proof.
  unfold copyLayers. rewrite each_copyLayer. cbn. auto.
Qed.

End Loops.

(** ** The zoomIn and zoomOut overrides *)

(** On a list of supported resolutions that is not empty, whatever the
    current resolution of the preview map is: the index computed by zoomIn
    and by zoomOut lies between 0 and length-1, so the array read gives an
    entry of the list, never [undefined]; the resolution that
    getZoomForResolution then selects, and hands to the source map, is an
    entry of the list as well; at the last index zoomIn keeps the index, and
    at index 0 zoomOut keeps it, and the entry read there is the current
    resolution. *)
Lemma zoom_overrides_clamped (rs : list Q) (current : Js.Num) :
  rs <> [] ->
  let last := (Z.of_nat (length rs) - 1)%Z in
  (0 <= zoomIn_index rs current <= last)%Z
  /\ (0 <= zoomOut_index rs current <= last)%Z
  /\ (exists r, zoomIn_resolution rs current = Some r /\ In r rs)
  /\ (exists r, zoomOut_resolution rs current = Some r /\ In r rs)
  /\ (exists r, selectedResolution rs (zoomIn_resolution rs current) = Some r /\ In r rs)
  /\ (exists r, selectedResolution rs (zoomOut_resolution rs current) = Some r /\ In r rs)
  /\ (Js.indexOf rs current = last ->
      zoomIn_index rs current = last
      /\ Js.strict_eq (zoomIn_resolution rs current) current = true)
  /\ (Js.indexOf rs current = 0%Z ->
      zoomOut_index rs current = 0%Z
      /\ Js.strict_eq (zoomOut_resolution rs current) current = true).
Proof.
  intros Hne last.
  assert (Hlen : (0 <= last)%Z)
    by (subst last; destruct rs; [congruence | simpl length; lia]).
  assert (Hidx : (-1 <= Js.indexOf rs current <= last)%Z).
  { destruct (indexOf_spec rs current) as [[-> _] | (y & _ & Hlo & Hhi & _)];
      subst last; lia. }
  assert (Hin : (0 <= zoomIn_index rs current <= last)%Z)
    by (unfold zoomIn_index; fold last; lia).
  assert (Hout : (0 <= zoomOut_index rs current <= last)%Z)
    by (unfold zoomOut_index; lia).
  repeat match goal with |- _ /\ _ => split end.
  - apply Hin.
  - apply Hin.
  - apply Hout.
  - apply Hout.
  - apply get_in_range. subst last. lia.
  - apply get_in_range. subst last. lia.
  - now apply selected_in_list.
  - now apply selected_in_list.
  - intros E.
    assert (Ei : zoomIn_index rs current = last)
      by (unfold zoomIn_index; fold last; lia).
    split; [exact Ei|].
    unfold zoomIn_resolution. rewrite Ei, <- E.
    destruct (indexOf_spec rs current) as [[Hm _] | (y & Hy & Hlo & _ & Heq)]; [lia|].
    replace (Js.get rs (Js.indexOf rs current)) with (Some y); [exact Heq|].
    symmetry. apply get_Some. split; [lia|].
    now rewrite Z.sub_0_r in Hy.
  - intros E.
    assert (Ei : zoomOut_index rs current = 0%Z)
      by (unfold zoomOut_index; lia).
    split; [exact Ei|].
    unfold zoomOut_resolution. rewrite Ei, <- E.
    destruct (indexOf_spec rs current) as [[Hm _] | (y & Hy & Hlo & _ & Heq)]; [lia|].
    replace (Js.get rs (Js.indexOf rs current)) with (Some y); [exact Heq|].
    symmetry. apply get_Some. split; [lia|].
    now rewrite Z.sub_0_r in Hy.
Qed.

(** ** The two ends of a descending list

    On a list in descending order the coarsest resolution is the first entry
    and the finest the last one; zooming out at the first and zooming in at
    the last select the current resolution again. *)

Lemma strict_eq_Some (x y : Q) : Js.strict_eq (Some x) (Some y) = true <-> (x == y)%Q.
Proof. apply Qeq_bool_iff. Qed.

Lemma scan_all_above (rs : list Q) (t : Q) :
  (forall r, In r rs -> (t <= r)%Q) -> scan rs (Some t) = Z.of_nat (length rs).
Proof.
  induction rs as [|x rs IH]; intros Hall.
  - reflexivity.
  - rewrite scan_cons.
    assert (E : Js.lt (Some x) (Some t) = false)
      by (apply lt_Some_false, Hall; now left).
    rewrite E, IH; [simpl length; lia|].
    intros r Hr. apply Hall. now right.
Qed.

Lemma zoomOut_stays_coarsest (rs : list Q) (c : Q) :
  descending rs = true ->
  Js.get rs 0 = Some c ->
  exists r,
    selectedResolution rs (zoomOut_resolution rs (Some c)) = Some r /\ (r == c)%Q.
Proof.
  intros Hd Hc.
  assert (Hc0 : rs !! 0%nat = Some c) by (apply get_Some in Hc as [_ Hc]; exact Hc).
  assert (Hidx : Js.indexOf rs (Some c) = 0%Z).
  { destruct rs as [|x rs]; [discriminate|]. injection Hc0 as ->.
    unfold Js.indexOf. cbn [Js.indexOfFrom].
    assert (E : Js.strict_eq (Some c) (Some c) = true)
      by (apply strict_eq_Some, Qeq_refl).
    now rewrite E. }
  unfold zoomOut_resolution, zoomOut_index. rewrite Hidx.
  change (Z.max (0 - 1) 0) with 0%Z. rewrite Hc.
  pose proof (scan_bounds rs (Some c)) as Hb.
  assert (Hpos : (1 <= scan rs (Some c))%Z).
  { destruct rs as [|x rs]; [discriminate|]. injection Hc0 as ->.
    rewrite scan_cons.
    assert (E : Js.lt (Some c) (Some c) = false)
      by (apply lt_Some_false, Qle_refl).
    rewrite E. pose proof (scan_bounds rs (Some c)). lia. }
  unfold selectedResolution.
  destruct (get_in_range rs (Z.max 0 (scan rs (Some c) - 1))) as (r & Hr & _); [lia|].
  exists r. split; [exact Hr|].
  apply get_Some in Hr as [_ Hr].
  apply Qle_antisym.
  - apply (descending_lookup rs 0 (Z.to_nat (Z.max 0 (scan rs (Some c) - 1))) c r);
      [exact Hd | lia | exact Hc0 | exact Hr].
  - apply (scan_before rs c (Z.to_nat (Z.max 0 (scan rs (Some c) - 1))) r);
      [lia | exact Hr].
Qed.

Lemma zoomIn_stays_finest (rs : list Q) (c : Q) :
  descending rs = true ->
  Js.get rs (Z.of_nat (length rs) - 1) = Some c ->
  exists r,
    selectedResolution rs (zoomIn_resolution rs (Some c)) = Some r /\ (r == c)%Q.
Proof.
  intros Hd Hc. apply get_Some in Hc as [Hlen Hc].
  set (last := Z.to_nat (Z.of_nat (length rs) - 1)) in *.
  assert (Hlow : forall (j : nat) (r : Q), rs !! j = Some r -> (c <= r)%Q).
  { intros j r Hj. apply (descending_lookup rs j last r c); try assumption.
    apply lookup_lt_Some in Hj. subst last. lia. }
  (* the entry that zoomIn reads is the current resolution *)
  assert (Hread : exists r0, zoomIn_resolution rs (Some c) = Some r0 /\ (r0 == c)%Q).
  { unfold zoomIn_resolution, zoomIn_index.
    destruct (indexOf_spec rs (Some c)) as [[_ Hnone] | (y & Hy & Hlo & Hhi & Heq)].
    - exfalso.
      assert (Hin : In c rs) by (apply list_elem_of_In, list_elem_of_lookup; eauto).
      apply Hnone in Hin.
      assert (E : Js.strict_eq (Some c) (Some c) = true)
        by (apply strict_eq_Some, Qeq_refl).
      congruence.
    - rewrite Z.sub_0_r in Hy. apply strict_eq_Some in Heq.
      destruct (get_in_range rs
                  (Z.min (Js.indexOf rs (Some c) + 1) (Z.of_nat (length rs) - 1)))
        as (r0 & Hr0 & _); [lia|].
      exists r0. split; [exact Hr0|].
      apply get_Some in Hr0 as [_ Hr0].
      apply Qle_antisym; [| now apply (Hlow _ _ Hr0)].
      rewrite <- Heq.
      eapply (descending_lookup rs); [exact Hd | | exact Hy | exact Hr0]. lia. }
  destruct Hread as (r0 & -> & Hr0).
  assert (Hscan : scan rs (Some r0) = Z.of_nat (length rs)).
  { apply scan_all_above. intros r Hr.
    apply list_elem_of_In, list_elem_of_lookup in Hr as [j Hj].
    rewrite Hr0. now apply (Hlow j). }
  unfold selectedResolution. rewrite Hscan.
  exists c. split; [| apply Qeq_refl].
  apply get_Some. split; [lia|].
  replace (Z.to_nat (Z.max 0 (Z.of_nat (length rs) - 1))) with last by (subst last; lia).
  exact Hc.
Qed.

(** ** Where zoomIn and zoomOut end up *)

Lemma indexOfFrom_Qeq (rs : list Q) (c f : Q) (i : Z) :
  (c == f)%Q -> Js.indexOfFrom rs (Some c) i = Js.indexOfFrom rs (Some f) i.
Proof.
  intros Hcf. revert i. induction rs as [|y rs IH]; intros i; cbn [Js.indexOfFrom].
  - reflexivity.
  - assert (E : Js.strict_eq (Some y) (Some c) = Js.strict_eq (Some y) (Some f)).
    { apply Bool.eq_iff_eq_true. rewrite !strict_eq_Some.
      split; intros H; [now rewrite H, Hcf | now rewrite H, Hcf]. }
    rewrite E, IH. reflexivity.
Qed.

(** C9, as stated, fails on lists that are not in descending order.  On the
    list 100, 10, 50 the finest resolution is 10; zoomIn at 10 reads the
    entry 50 and getZoomForResolution then selects 100.  At 50, the last
    entry, zoomIn keeps the index and reads 50, and getZoomForResolution
    selects 100 all the same.  On the list 10, 50, 100, 20 the coarsest
    resolution is 100; zoomOut at 100 reads 50 and ends with 10 selected. *)
Lemma zoom_overrides_leave_the_end :
  ([100; 10; 50]%Q <> []
   /\ (forall r, In r [100; 10; 50]%Q -> (10 <= r)%Q)
   /\ zoomIn_resolution [100; 10; 50]%Q (Some 10%Q) = Some 50%Q
   /\ selectedResolution [100; 10; 50]%Q (zoomIn_resolution [100; 10; 50]%Q (Some 10%Q))
      = Some 100%Q
   /\ ~ (100 == 10)%Q)
  /\ (zoomIn_index [100; 10; 50]%Q (Some 50%Q) = 2%Z
      /\ zoomIn_resolution [100; 10; 50]%Q (Some 50%Q) = Some 50%Q
      /\ selectedResolution [100; 10; 50]%Q (zoomIn_resolution [100; 10; 50]%Q (Some 50%Q))
         = Some 100%Q
      /\ ~ (100 == 50)%Q)
  /\ ([10; 50; 100; 20]%Q <> []
      /\ (forall r, In r [10; 50; 100; 20]%Q -> (r <= 100)%Q)
      /\ zoomOut_resolution [10; 50; 100; 20]%Q (Some 100%Q) = Some 50%Q
      /\ selectedResolution [10; 50; 100; 20]%Q
           (zoomOut_resolution [10; 50; 100; 20]%Q (Some 100%Q))
         = Some 10%Q
      /\ ~ (10 == 100)%Q).
Proof.
  assert (Hneq : forall a b : Q, Qeq_bool a b = false -> ~ (a == b)%Q).
  { intros a b E H. apply Qeq_bool_iff in H. congruence. }
  split; [| split].
  - split; [discriminate|]. split.
    + intros r [<- | [<- | [<- | []]]]; apply Qle_bool_iff; reflexivity.
    + split; [reflexivity|]. split; [reflexivity|]. now apply Hneq.
  - split; [reflexivity|]. split; [reflexivity|]. split; [reflexivity|]. now apply Hneq.
  - split; [discriminate|]. split.
    + intros r [<- | [<- | [<- | [<- | []]]]]; apply Qle_bool_iff; reflexivity.
    + split; [reflexivity|]. split; [reflexivity|]. now apply Hneq.
Qed.

(** C9, amended.  On a list of supported resolutions that is not empty,
    whatever the current resolution of the preview map is: the index computed
    by zoomIn and by zoomOut lies between 0 and length-1, so the array read
    gives an entry of the list, never [undefined], and the resolution that
    getZoomForResolution then selects is an entry of the list as well; at the
    last index zoomIn keeps the index and at index 0 zoomOut keeps it.  When
    the list is in descending order, so that its last entry is the finest
    and its first entry the coarsest resolution, zoomIn at the value of the
    finest selects the value of the finest again, and zoomOut at the value of
    the coarsest selects the value of the coarsest again. *)
Theorem zoom_overrides_select (rs : list Q) (current : Js.Num) :
  rs <> [] ->
  let last := (Z.of_nat (length rs) - 1)%Z in
  (0 <= zoomIn_index rs current <= last)%Z
  /\ (0 <= zoomOut_index rs current <= last)%Z
  /\ (exists r, zoomIn_resolution rs current = Some r /\ In r rs)
  /\ (exists r, zoomOut_resolution rs current = Some r /\ In r rs)
  /\ (exists r, selectedResolution rs (zoomIn_resolution rs current) = Some r /\ In r rs)
  /\ (exists r, selectedResolution rs (zoomOut_resolution rs current) = Some r /\ In r rs)
  /\ (Js.indexOf rs current = last ->
      zoomIn_index rs current = last
      /\ Js.strict_eq (zoomIn_resolution rs current) current = true)
  /\ (Js.indexOf rs current = 0%Z ->
      zoomOut_index rs current = 0%Z
      /\ Js.strict_eq (zoomOut_resolution rs current) current = true)
  /\ (descending rs = true ->
      (forall finest c : Q,
         Js.get rs last = Some finest -> current = Some c -> (c == finest)%Q ->
         exists r,
           selectedResolution rs (zoomIn_resolution rs current) = Some r
           /\ In r rs /\ (r == finest)%Q)
      /\ (forall coarsest c : Q,
            Js.get rs 0 = Some coarsest -> current = Some c -> (c == coarsest)%Q ->
            exists r,
              selectedResolution rs (zoomOut_resolution rs current) = Some r
              /\ In r rs /\ (r == coarsest)%Q)).
Proof.
  intros Hne last.
  pose proof (zoom_overrides_clamped rs current Hne) as Hall. cbv zeta in Hall.
  fold last in Hall.
  destruct Hall as (H1 & H2 & H3 & H4 & H5 & H6 & H7 & H8).
  do 8 (split; [assumption|]).
  intros Hd. split.
  - intros finest c Hget -> Hc.
    assert (Ein : zoomIn_resolution rs (Some c) = zoomIn_resolution rs (Some finest)).
    { unfold zoomIn_resolution, zoomIn_index, Js.indexOf.
      now rewrite (indexOfFrom_Qeq rs c finest 0 Hc). }
    rewrite Ein.
    destruct (zoomIn_stays_finest rs finest Hd Hget) as (r & Hsel & Hr).
    exists r. split; [exact Hsel|]. split; [| exact Hr].
    unfold selectedResolution in Hsel. apply get_Some in Hsel as [_ Hsel].
    apply list_elem_of_In, list_elem_of_lookup. eauto.
  - intros coarsest c Hget -> Hc.
    assert (Eout : zoomOut_resolution rs (Some c) = zoomOut_resolution rs (Some coarsest)).
    { unfold zoomOut_resolution, zoomOut_index, Js.indexOf.
      now rewrite (indexOfFrom_Qeq rs c coarsest 0 Hc). }
    rewrite Eout.
    destruct (zoomOut_stays_coarsest rs coarsest Hd Hget) as (r & Hsel & Hr).
    exists r. split; [exact Hsel|]. split; [| exact Hr].
    unfold selectedResolution in Hsel. apply get_Some in Hsel as [_ Hsel].
    apply list_elem_of_In, list_elem_of_lookup. eauto.
Qed.

(** On the list 100, 50, 25, 10: zoomIn at 10 and zoomOut at 100 stay, and
    from a resolution that is not in the list both indices are in range. *)
Lemma zoom_overrides_select_demo :
  (exists r,
      selectedResolution [100; 50; 25; 10]%Q
        (zoomIn_resolution [100; 50; 25; 10]%Q (Some 10%Q)) = Some r
      /\ In r [100; 50; 25; 10]%Q /\ (r == 10)%Q)
  /\ (exists r,
        selectedResolution [100; 50; 25; 10]%Q
          (zoomOut_resolution [100; 50; 25; 10]%Q (Some 100%Q)) = Some r
        /\ In r [100; 50; 25; 10]%Q /\ (r == 100)%Q)
  /\ (zoomIn_index [100; 50; 25; 10]%Q (Some 10%Q) = 3%Z
      /\ Js.strict_eq (zoomIn_resolution [100; 50; 25; 10]%Q (Some 10%Q)) (Some 10%Q) = true)
  /\ (zoomOut_index [100; 50; 25; 10]%Q (Some 100%Q) = 0%Z
      /\ Js.strict_eq (zoomOut_resolution [100; 50; 25; 10]%Q (Some 100%Q)) (Some 100%Q)
         = true)
  /\ (0 <= zoomIn_index [100; 50; 25; 10]%Q (Some 7%Q) <= 3)%Z
  /\ (0 <= zoomOut_index [100; 50; 25; 10]%Q (Some 7%Q) <= 3)%Z
  /\ (exists r, selectedResolution [100; 50; 25; 10]%Q
                  (zoomIn_resolution [100; 50; 25; 10]%Q (Some 7%Q)) = Some r
                /\ In r [100; 50; 25; 10]%Q).
Proof.
  assert (Hne : [100; 50; 25; 10]%Q <> []) by discriminate.
  pose proof (zoom_overrides_select [100; 50; 25; 10]%Q (Some 10%Q) Hne) as Hfine.
  pose proof (zoom_overrides_select [100; 50; 25; 10]%Q (Some 100%Q) Hne) as Hcoarse.
  pose proof (zoom_overrides_select [100; 50; 25; 10]%Q (Some 7%Q) Hne) as Hoff.
  cbv zeta in Hfine, Hcoarse, Hoff.
  destruct Hfine as (_ & _ & _ & _ & _ & _ & Hin & _ & Hd1).
  destruct Hcoarse as (_ & _ & _ & _ & _ & _ & _ & Hout & Hd2).
  destruct Hoff as (H1 & H2 & _ & _ & H5 & _).
  destruct (Hd1 eq_refl) as [Hstay_in _].
  destruct (Hd2 eq_refl) as [_ Hstay_out].
  split; [apply (Hstay_in 10%Q 10%Q); reflexivity|].
  split; [apply (Hstay_out 100%Q 100%Q); reflexivity|].
  split; [apply Hin; reflexivity|].
  split; [apply Hout; reflexivity|].
  split; [exact H1|]. split; [exact H2|]. exact H5.
Defined.

End PrintMapPanelFacts.


(** * The update cycle between the page and the preview map *)

Module UpdateCycle.

Import PrintData PrintMapPanel.

Section Cycle.

Context {L M P : Type}.
Context `{!OpenLayers.Layer L} `{!OpenLayers.Util} `{!OpenLayers.View M} `{!PrintPage M P}.

Implicit Types p : Panel L M P.

(** While the guard is set, [updatePage] only notes that it was called. *)
Lemma updatePage_guarded (fuel : nat) p :
  _updating p = true ->
  updatePage (S fuel) p = Some (record (Moveend true) p).
Proof.
  intros Hg. cbn [updatePage]. unfold updatePage_with.
  rewrite Hg. cbn. rewrite Hg. reflexivity.
Qed.

Lemma fire_guarded (n fuel : nat) p :
  _updating p = true ->
  exists p',
    fire n (updatePage (S fuel)) p = Some p'
    /\ calls p' = calls p ++ repeat (Moveend true) n
    /\ printPage p' = printPage p
    /\ map p' = map p
    /\ _updating p' = true.
Proof.
  revert p. induction n as [|n IH]; intros p Hg; cbn [fire repeat].
  - exists p. rewrite app_nil_r. auto.
  - rewrite (updatePage_guarded fuel p Hg). cbn [mbind option_bind].
    destruct (IH (record (Moveend true) p) Hg) as (p' & Hrun & Hc & Hpg & Hm & Hu).
    exists p'. split; [exact Hrun|].
    rewrite Hc. cbn. rewrite <- app_assoc. auto.
Qed.

(** One run of [fitZoom]. *)
Lemma fitZoom_run (fuel : nat) p :
  exists p',
    fitZoom (S fuel) p = Some p'
    /\ calls p' = calls p ++ fitZoom_calls p
    /\ printPage p' = printPage p
    /\ _updating p' = false.
Proof.
  unfold fitZoom, fitZoom_with, fitZoom_calls. fold (fitZoom_zoom p).
  cbn [map set_updating].
  destruct (OpenLayers.getZoom (map p) =? fitZoom_zoom p)%Z.
  - cbn. eexists. split; [reflexivity|]. cbn. rewrite app_nil_r. auto.
  - unfold map_zoomTo.
    destruct (fire_guarded
                (OpenLayers.zoomTo_moveend (fitZoom_zoom p) (map p)) fuel
                (set_map (OpenLayers.zoomTo (fitZoom_zoom p) (map p))
                   (record (CallZoomTo (fitZoom_zoom p)) (set_updating true p))))
      as (q & Hrun & Hc & Hpg & _ & _); [reflexivity|].
    cbn [map set_updating] in *. rewrite Hrun. cbn [mbind option_bind].
    eexists. split; [reflexivity|]. cbn. rewrite Hc, Hpg. cbn.
    rewrite <- app_assoc. auto.
Qed.

Lemma fitZoom_calls_guarded p : forallb guarded (fitZoom_calls p) = true.
Proof.
  unfold fitZoom_calls.
  destruct (OpenLayers.getZoom (map p) =? fitZoom_zoom p)%Z; [reflexivity|].
  cbn. induction (OpenLayers.zoomTo_moveend (fitZoom_zoom p) (map p)); auto.
Qed.

(** Any number of "change" events, each answered by [fitZoom]. *)
Lemma fire_fitZoom (n fuel : nat) p :
  exists p' new,
    fire n (fitZoom (S fuel)) p = Some p'
    /\ calls p' = calls p ++ new
    /\ forallb guarded new = true
    /\ printPage p' = printPage p.
Proof.
  revert p. induction n as [|n IH]; intros p; cbn [fire].
  - exists p, []. rewrite app_nil_r. auto.
  - destruct (fitZoom_run fuel p) as (q & Hrun & Hc & Hpg & _).
    rewrite Hrun. cbn [mbind option_bind].
    destruct (IH q) as (p' & new & Hrun' & Hc' & Hg & Hpg').
    exists p', (fitZoom_calls p ++ new). split; [exact Hrun'|].
    rewrite Hc', Hc, Hpg', Hpg, <- app_assoc, forallb_app, Hg, fitZoom_calls_guarded.
    auto.
Qed.

(** With the guard clear, [updatePage] fits the page to the map. *)
Lemma updatePage_idle (fuel : nat) p :
  _updating p = false ->
  exists p' rest,
    updatePage (S (S fuel)) p = Some p'
    /\ calls p' = calls p ++ Moveend false :: CallFit :: rest
    /\ forallb guarded rest = true
    /\ printPage p' = fit (map p) (printPage p).
Proof.
  intros Hg.
  change (updatePage (S (S fuel)) p) with (updatePage_with (fitZoom (S fuel)) p).
  unfold updatePage_with. rewrite Hg. cbn [_updating record]. rewrite Hg.
  unfold printPage_fit.
  destruct (fire_fitZoom
              (fit_change (map (record (Moveend false) p))
                 (printPage (record (Moveend false) p)))
              fuel
              (set_printPage
                 (fit (map (record (Moveend false) p))
                    (printPage (record (Moveend false) p)))
                 (record CallFit (record (Moveend false) p))))
    as (p' & new & Hrun & Hc & Hgd & Hpg).
  exists p', new. split; [exact Hrun|].
  rewrite Hc, Hpg. cbn. rewrite <- !app_assoc. auto.
Qed.

(** C6.  A run of [fitZoom] returns, given fuel for one level of listeners.
    The calls it makes are a [zoomTo] at most, and every "moveend" that the
    [zoomTo] triggers reaches [updatePage] with the guard set: no [fit] of
    the page is called and the page is as it was.  When [fitZoom] returns the
    guard is clear, so that the next "moveend", a change of the view by the
    user, makes [updatePage] fit the page to the map. *)
Theorem fitZoom_no_feedback (fuel : nat) p :
  (1 <= fuel)%nat ->
  exists p',
    fitZoom fuel p = Some p'
    /\ calls p' = calls p ++ fitZoom_calls p
    /\ forallb guarded (fitZoom_calls p) = true
    /\ printPage p' = printPage p
    /\ _updating p' = false
    /\ forall fuel' : nat, (2 <= fuel')%nat ->
       exists p'' rest,
         updatePage fuel' p' = Some p''
         /\ calls p'' = calls p' ++ Moveend false :: CallFit :: rest
         /\ printPage p'' = fit (map p') (printPage p').
Proof.
  intros Hfuel. destruct fuel as [|fuel]; [lia|].
  destruct (fitZoom_run fuel p) as (p' & Hrun & Hc & Hpg & Hu).
  exists p'. repeat split; try assumption.
  - apply fitZoom_calls_guarded.
  - intros fuel' Hfuel'.
    destruct fuel' as [|[|fuel']]; [lia | lia |].
    destruct (updatePage_idle fuel' p' Hu) as (p'' & rest & Hrun' & Hc' & _ & Hpg').
    exists p'', rest. auto.
Qed.

End Cycle.

Import Demo.

(** On the demo panel, whose page asks for zoom level 50 while the map is at
    25: [fitZoom] zooms the map, the "moveend" finds the guard set, and the
    page keeps its scale. *)
Lemma fitZoom_demo :
  exists p',
    fitZoom 1 (Demo.demo_panel [100; 50; 25; 10]%Q) = Some p'
    /\ calls p' = [CallZoomTo 50; Moveend true]
    /\ printPage p' = {| name := "1:200"; value := 200 |}
    /\ _updating p' = false.
Proof.
  destruct (fitZoom_no_feedback 1 (Demo.demo_panel [100; 50; 25; 10]%Q))
    as (p' & Hrun & Hc & _ & Hpg & Hu & _); [lia|].
  exists p'. auto.
Defined.

End UpdateCycle.

(** * Properties of the WMS legend *)

Module WMSLegendFacts.

Import WMSLegend.

(** ** Items *)

Lemma findFrom_ge (fn : Item -> bool) (its : list Item) (i k : nat) :
  findFrom fn its i = Some k -> (i <= k)%nat.
Proof.
  revert i. induction its as [|it its IH]; intros i; cbn [findFrom].
  - discriminate.
  - destruct (fn it).
    + intros [= <-]. lia.
    + intros H. apply IH in H. lia.
Qed.

Lemma labels_cons (it : Item) (its : list Item) :
  labels (it :: its) = ((if isXType_label it then 1 else 0) + labels its)%nat.
Proof. unfold labels. cbn [List.filter]. now destruct (isXType_label it). Qed.

Lemma labels_refresh (url : option string) (its : list Item) :
  labels (refresh url <$> its) = labels its.
Proof.
  induction its as [|it its IH]; [reflexivity|].
  rewrite fmap_cons, !labels_cons, IH. now destruct it.
Qed.

Lemma labels_app (xs ys : list Item) : labels (xs ++ ys) = (labels xs + labels ys)%nat.
Proof. unfold labels. now rewrite List.filter_app, length_app. Qed.

Lemma hasImage_refresh (url : option string) (its : list Item) :
  hasImage (refresh url <$> its) = hasImage its.
Proof.
  induction its as [|it its IH]; [reflexivity|].
  rewrite fmap_cons. cbn [hasImage existsb]. fold (hasImage its).
  fold (hasImage (refresh url <$> its)). rewrite IH. now destruct it.
Qed.

Lemma refresh_refresh (url : option string) (its : list Item) :
  refresh url <$> (refresh url <$> its) = refresh url <$> its.
Proof.
  rewrite <- list_fmap_compose. apply list_fmap_ext. intros _ [t|u] _; reflexivity.
Qed.

Lemma imageUrls_refresh (url : option string) (its : list Item) :
  imageUrls (refresh url <$> its) = repeat url (length (imageUrls its)).
Proof.
  unfold imageUrls. induction its as [|[t|u] its IH]; cbn; [reflexivity | exact IH |].
  f_equal. exact IH.
Qed.

Lemma imageUrls_app (xs ys : list Item) :
  imageUrls (xs ++ ys) = imageUrls xs ++ imageUrls ys.
Proof. unfold imageUrls. apply omap_app. Qed.

Lemma hasImage_urls (its : list Item) :
  hasImage its = negb (Nat.eqb (length (imageUrls its)) 0).
Proof.
  unfold imageUrls. induction its as [|[t|u] its IH]; cbn; [reflexivity | exact IH | reflexivity].
Qed.

Section Legend.

Context {B : Type} `{!WMS.Bounds B}.

Implicit Types lg : Legend B.

(** ** The loop over the items *)

(** Past the label, or without one: every item must be an image. *)
Lemma eachFrom_images lg (url : option string) (textCmp : option nat)
    (its : list Item) (i : nat) (done : list Item) (found : bool) :
  getLegendUrl lg = Ok url ->
  (forall j : nat, (i <= j)%nat -> textCmp <> Some j) ->
  labels its = 0%nat ->
  eachFrom lg textCmp i its (done, found)
  = Ok (done ++ (refresh url <$> its), found || hasImage its).
Proof.
  intros Hurl. revert i done found.
  induction its as [|it its IH]; intros i done found Htc Hl; cbn [eachFrom].
  - cbn. now rewrite app_nil_r, orb_false_r.
  - rewrite labels_cons in Hl. destruct it as [t|u]; [cbn in Hl; lia|].
    unfold setUrl_fn. destruct (decide (textCmp = Some i)) as [E|_].
    { exfalso. apply (Htc i); [lia | exact E]. }
    rewrite Hurl. cbn [bind setUrl].
    rewrite IH; [| intros j Hj; apply Htc; lia | exact Hl].
    rewrite fmap_cons, <- app_assoc. cbn. now rewrite orb_true_r.
Qed.

(** Up to the label, which is the first one found from here on. *)
Lemma eachFrom_label lg (url : option string)
    (its : list Item) (i : nat) (done : list Item) (found : bool) :
  getLegendUrl lg = Ok url ->
  (labels its <= 1)%nat ->
  eachFrom lg (findFrom isXType_label its i) i its (done, found)
  = Ok (done ++ (refresh url <$> its), found || hasImage its).
Proof.
  intros Hurl. revert i done found.
  induction its as [|it its IH]; intros i done found Hl; cbn [eachFrom findFrom].
  - cbn. now rewrite app_nil_r, orb_false_r.
  - rewrite labels_cons in Hl. destruct it as [t|u]; cbn [isXType_label] in *.
    + unfold setUrl_fn. destruct (decide (Some i = Some i)) as [_|N]; [|congruence].
      cbn [bind].
      rewrite (eachFrom_images lg url); [| exact Hurl | intros j Hj [= ->]; lia | lia].
      rewrite fmap_cons, <- app_assoc. reflexivity.
    + unfold setUrl_fn.
      destruct (decide (findFrom isXType_label its (S i) = Some i)) as [E|_].
      { apply findFrom_ge in E. lia. }
      rewrite Hurl. cbn [bind setUrl].
      rewrite IH; [| exact Hl].
      rewrite fmap_cons, <- app_assoc. cbn. now rewrite orb_true_r.
Qed.

(** What [reconcileLegendItems] returns on a legend that has its layer and
    one label at most. *)
Lemma reconcile_returns lg (layer : WMS.Layer B) :
  getLayer lg = Some layer ->
  (labels (items lg) <= 1)%nat ->
  reconcileLegendItems lg
  = Ok (set_items
          (if hasImage (items lg)
           then refresh (getLegendUrl_of layer) <$> items lg
           else items lg ++ [LegendImage (getLegendUrl_of layer)]) lg).
Proof.
  intros Hlayer Hl.
  assert (Hurl : getLegendUrl lg = Ok (getLegendUrl_of layer))
    by (unfold getLegendUrl; now rewrite Hlayer).
  unfold reconcileLegendItems, find.
  rewrite (eachFrom_label lg (getLegendUrl_of layer)); [| exact Hurl | exact Hl].
  cbn [bind app orb].
  destruct (hasImage (items lg)) eqn:E; [reflexivity|].
  rewrite Hurl. cbn [bind]. do 3 f_equal.
  (* without an image the items are the label alone, or nothing *)
  clear -E. induction (items lg) as [|[t|u] its IH]; cbn in *; [reflexivity | | discriminate].
  f_equal. apply IH, E.
Qed.

(** ** Reconciling the items twice *)

(** C4.  On a legend that has its layer and one label at most,
    [reconcileLegendItems] returns, and a second call on the result returns
    the same legend: the same items with the same URLs.  When there was an
    image, the items are the old ones with the URL of every image replaced by
    the legend URL; when there was none, one image with the legend URL is
    added at the end.  Either way the images afterwards are as many as
    before, or one if there was none, and each has the legend URL. *)
Theorem reconcile_idempotent lg (layer : WMS.Layer B) :
  getLayer lg = Some layer ->
  (labels (items lg) <= 1)%nat ->
  exists lg1,
    reconcileLegendItems lg = Ok lg1
    /\ reconcileLegendItems lg1 = Ok lg1
    /\ getLayer lg1 = getLayer lg
    /\ items lg1
       = (if hasImage (items lg)
          then refresh (getLegendUrl_of layer) <$> items lg
          else items lg ++ [LegendImage (getLegendUrl_of layer)])
    /\ imageUrls (items lg1)
       = repeat (getLegendUrl_of layer) (Nat.max 1 (length (imageUrls (items lg)))).
Proof.
  intros Hlayer Hl.
  pose proof (reconcile_returns lg layer Hlayer Hl) as Hrun.
  set (url := getLegendUrl_of layer) in *.
  set (its1 := if hasImage (items lg) then refresh url <$> items lg
               else items lg ++ [LegendImage url]) in *.
  assert (Hl1 : (labels its1 <= 1)%nat).
  { subst its1. destruct (hasImage (items lg)).
    - now rewrite labels_refresh.
    - rewrite labels_app. cbn. lia. }
  assert (Himg1 : hasImage its1 = true).
  { subst its1. destruct (hasImage (items lg)) eqn:E.
    - now rewrite hasImage_refresh.
    - unfold hasImage. rewrite existsb_app. cbn. apply orb_true_r. }
  assert (Hfix : refresh url <$> its1 = its1).
  { subst its1. destruct (hasImage (items lg)) eqn:E.
    - apply refresh_refresh.
    - rewrite fmap_app. cbn. f_equal.
      clear -E. induction (items lg) as [|[t|u] its IH]; cbn in *;
        [reflexivity | | discriminate].
      f_equal. apply IH, E. }
  exists (set_items its1 lg). split; [exact Hrun|]. split.
  - rewrite (reconcile_returns (set_items its1 lg) layer Hlayer Hl1).
    change (items (set_items its1 lg)) with its1. fold url.
    rewrite Himg1, Hfix. reflexivity.
  - split; [reflexivity|]. split; [reflexivity|].
    cbn [items set_items]. subst its1.
    rewrite (hasImage_urls (items lg)).
    destruct (length (imageUrls (items lg))) as [|n] eqn:En; cbn [Nat.eqb negb].
    + rewrite imageUrls_app. apply length_zero_iff_nil in En. rewrite En. reflexivity.
    + rewrite imageUrls_refresh, En. reflexivity.
Qed.

(** ** A layer without a map, or a map without an extent *)

Context `{!LayerLegend B}.

(** C3.  When the layer of the legend is not attached to a map, [update]
    returns at once and leaves the legend as it was, its items and their URLs
    included; no legend parameters are computed and [getLegendUrl] gives no
    URL. *)
Theorem update_detached lg (layer : WMS.Layer B) :
  getLayer lg = Some layer ->
  WMS.map layer = None ->
  update lg = Ok lg
  /\ legendParams layer = None
  /\ getLegendUrl lg = Ok None.
Proof.
  intros Hlayer Hmap. unfold update, getLegendUrl, getLegendUrl_of, legendParams.
  rewrite Hlayer, Hmap. auto.
Qed.

(** C8.  When the layer is attached to a map whose extent is null, no legend
    parameters are computed and [getLegendUrl] gives no URL either; [update]
    is not bypassed in that case: it goes on to reconcile the items. *)
Theorem getLegendUrl_no_extent lg (layer : WMS.Layer B) (m : WMS.Map B) :
  getLayer lg = Some layer ->
  WMS.map layer = Some m ->
  WMS.getExtent m = None ->
  legendParams layer = None
  /\ getLegendUrl lg = Ok None
  /\ update lg = reconcileLegendItems (superclass_update lg).
Proof.
  intros Hlayer Hmap Hext. unfold update, getLegendUrl, getLegendUrl_of, legendParams.
  rewrite Hlayer, Hmap, Hext. auto.
Qed.

(** ** The LAYERS parameter *)

(** C7.  For a layer on a map with an extent, the legend parameters are
    computed and the URL is the request string for them.  The parameters hold
    LAYERS exactly when the layer declares legend sublayers, and then its
    value is that list; in the request, LAYERS is that list when it is
    declared and the layer's own LAYERS parameter when it is not. *)
Theorem legend_layers (layer : WMS.Layer B) (m : WMS.Map B) (extent : B) :
  WMS.map layer = Some m ->
  WMS.getExtent m = Some extent ->
  exists np,
    legendParams layer = Some np
    /\ getLegendUrl_of layer = Some (WMS.getFullRequestString layer np)
    /\ np !! "REQUEST"%string = Some (WMS.PString "GetLegendGraphic")
    /\ np !! "LAYERS"%string = WMS.PNames <$> WMS.legendLayers layer
    /\ WMS.requestParams layer np !! "LAYERS"%string
       = match WMS.legendLayers layer with
         | Some names => Some (WMS.PNames names)
         | None => WMS.params layer !! "LAYERS"%string
         end.
Proof.
  intros Hmap Hext. exists (newParams layer extent).
  unfold getLegendUrl_of, legendParams. rewrite Hmap, Hext.
  split; [reflexivity|]. split; [reflexivity|].
  unfold WMS.requestParams, newParams.
  destruct (WMS.legendLayers layer) as [names|]; cbn [fmap option_fmap option_map].
  - split; [now simplify_map_eq|]. split; [now simplify_map_eq|].
    apply lookup_union_Some_l. now simplify_map_eq.
  - split; [now simplify_map_eq|]. split; [now simplify_map_eq|].
    apply lookup_union_r. now simplify_map_eq.
Qed.

End Legend.

Import Demo.

Lemma reconcile_demo :
  exists lg1,
    reconcileLegendItems
      (demo_legend (demo_wms demo_attached (Some ["a"; "b"]%string)) [Label "BGT"])
    = Ok lg1
    /\ reconcileLegendItems lg1 = Ok lg1
    /\ items lg1 = [Label "BGT"; LegendImage (Some "wms?LAYERS=a,b"%string)]
    /\ imageUrls (items lg1) = [Some "wms?LAYERS=a,b"%string].
Proof.
  destruct (reconcile_idempotent
              (demo_legend (demo_wms demo_attached (Some ["a"; "b"]%string)) [Label "BGT"])
              (demo_wms demo_attached (Some ["a"; "b"]%string)) eq_refl)
    as (lg1 & H1 & H2 & _ & H3 & H4).
  - cbn. lia.
  - exists lg1. split; [exact H1|]. split; [exact H2|]. split.
    + rewrite H3. vm_compute. reflexivity.
    + rewrite H4. vm_compute. reflexivity.
Defined.

Lemma update_detached_demo :
  update (demo_legend (demo_wms None None) [Label "BGT"; LegendImage (Some "old"%string)])
  = Ok (demo_legend (demo_wms None None) [Label "BGT"; LegendImage (Some "old"%string)])
  /\ legendParams (demo_wms None None) = None
  /\ getLegendUrl
       (demo_legend (demo_wms None None) [Label "BGT"; LegendImage (Some "old"%string)])
     = Ok None.
Proof.
  exact (update_detached
           (demo_legend (demo_wms None None) [Label "BGT"; LegendImage (Some "old"%string)])
           (demo_wms None None) eq_refl eq_refl).
Defined.

Lemma getLegendUrl_no_extent_demo :
  legendParams (demo_wms demo_no_extent None) = None
  /\ getLegendUrl (demo_legend (demo_wms demo_no_extent None) [Label "BGT"]) = Ok None
  /\ update (demo_legend (demo_wms demo_no_extent None) [Label "BGT"])
     = Ok (demo_legend (demo_wms demo_no_extent None) [Label "BGT"; LegendImage None]).
Proof.
  destruct (getLegendUrl_no_extent
              (demo_legend (demo_wms demo_no_extent None) [Label "BGT"])
              (demo_wms demo_no_extent None) {| WMS.getExtent := None |}
              eq_refl eq_refl eq_refl) as (H1 & H2 & H3).
  split; [exact H1|]. split; [exact H2|]. rewrite H3. reflexivity.
Defined.

(** The example of the specification: the sublayers a, b of a layer with the
    layers a, b, c. *)
Lemma legend_layers_demo :
  exists np,
    legendParams (demo_wms demo_attached (Some ["a"; "b"]%string)) = Some np
    /\ np !! "LAYERS"%string = Some (WMS.PNames ["a"; "b"]%string)
    /\ WMS.requestParams (demo_wms demo_attached (Some ["a"; "b"]%string)) np
         !! "LAYERS"%string
       = Some (WMS.PNames ["a"; "b"]%string)
    /\ WMS.params (demo_wms demo_attached (Some ["a"; "b"]%string)) !! "LAYERS"%string
       = Some (WMS.PNames ["a"; "b"; "c"]%string)
    /\ getLegendUrl_of (demo_wms demo_attached (Some ["a"; "b"]%string))
       = Some "wms?LAYERS=a,b"%string.
Proof.
  destruct (legend_layers (demo_wms demo_attached (Some ["a"; "b"]%string))
              {| WMS.getExtent := Some demo_extent |} demo_extent eq_refl eq_refl)
    as (np & H1 & H2 & _ & H3 & H4).
  exists np. split; [exact H1|]. split; [exact H3|]. split; [exact H4|].
  split; [reflexivity|].
  rewrite H2. injection H1 as <-. vm_compute. reflexivity.
Defined.

End WMSLegendFacts.

(** * More on the resolution that getZoomForResolution selects *)

Module Snapping.

Import PrintData PrintMapPanel PrintMapPanelFacts.

(** ** Where the scan stops *)

Lemma scan_pos (rs : list Q) (t r0 : Q) :
  Js.get rs 0 = Some r0 -> (t <= r0)%Q -> (1 <= scan rs (Some t))%Z.
Proof.
  intros H0 Hle. apply get_Some in H0 as [_ H0].
  destruct rs as [|x rs]; [discriminate|]. injection H0 as ->.
  rewrite scan_cons.
  assert (E : Js.lt (Some r0) (Some t) = false) by now apply lt_Some_false.
  rewrite E. pose proof (scan_bounds rs (Some t)). lia.
Qed.

Lemma scan_zero (rs : list Q) (t r0 : Q) :
  Js.get rs 0 = Some r0 -> (r0 < t)%Q -> scan rs (Some t) = 0%Z.
Proof.
  intros H0 Hlt. apply get_Some in H0 as [_ H0].
  destruct rs as [|x rs]; [discriminate|]. injection H0 as ->.
  rewrite scan_cons.
  assert (E : Js.lt (Some r0) (Some t) = true) by now apply lt_Some.
  now rewrite E.
Qed.

Lemma scan_undefined (rs : list Q) : scan rs None = Z.of_nat (length rs).
Proof.
  induction rs as [|x rs IH]; [reflexivity|].
  rewrite scan_cons, lt_undefined, IH. simpl length. lia.
Qed.

Lemma selected_not_finer (rs : list Q) (t r0 : Q) :
  Js.get rs 0 = Some r0 -> (t <= r0)%Q ->
  exists r, selectedResolution rs (Some t) = Some r /\ (t <= r)%Q.
Proof.
  intros H0 Hle.
  pose proof (scan_pos rs t r0 H0 Hle) as Hpos.
  pose proof (scan_bounds rs (Some t)) as Hb.
  unfold selectedResolution.
  destruct (get_in_range rs (Z.max 0 (scan rs (Some t) - 1))) as (r & Hr & _); [lia|].
  exists r. split; [exact Hr|].
  apply get_Some in Hr as [_ Hr].
  eapply (scan_before rs t); [| exact Hr]. lia.
Qed.

Lemma selected_least (rs : list Q) (t r x : Q) :
  descending rs = true ->
  selectedResolution rs (Some t) = Some r -> (t <= r)%Q ->
  In x rs -> (t <= x)%Q -> (r <= x)%Q.
Proof.
  intros Hd Hsel Htr Hx Htx.
  unfold selectedResolution in Hsel.
  pose proof (scan_bounds rs (Some t)) as Hb.
  assert (Hr : rs !! Z.to_nat (Z.max 0 (scan rs (Some t) - 1)) = Some r)
    by (apply get_Some in Hsel as [_ H]; exact H).
  apply list_elem_of_In, list_elem_of_lookup in Hx as [j Hj].
  destruct (le_lt_dec j (Z.to_nat (Z.max 0 (scan rs (Some t) - 1)))) as [Hle | Hgt].
  - apply (descending_lookup rs j _ x r Hd Hle Hj Hr).
  - exfalso.
    pose proof (lookup_lt_Some _ _ _ Hj) as Hlen.
    destruct (get_in_range rs (scan rs (Some t))) as (y & Hy & _); [lia|].
    pose proof (scan_stops rs t y Hy) as Hyt.
    apply get_Some in Hy as [_ Hy].
    destruct (Z.eq_dec (scan rs (Some t)) 0) as [E0 | N0].
    + rewrite E0 in Hr, Hy. change (Z.to_nat (Z.max 0 (0 - 1))) with 0%nat in Hr.
      change (Z.to_nat 0) with 0%nat in Hy. rewrite Hr in Hy. injection Hy as ->.
      apply (Qlt_not_le _ _ Hyt Htr).
    + assert (Hxy : (x <= y)%Q).
      { apply (descending_lookup rs (Z.to_nat (scan rs (Some t))) j y x Hd);
          [lia | exact Hy | exact Hj]. }
      apply (Qlt_not_le _ _ Hyt). eapply Qle_trans; eassumption.
Qed.

(** On a descending list an entry selects itself, up to the value. *)
Lemma selected_entry (rs : list Q) (r : Q) :
  descending rs = true -> In r rs ->
  exists r', selectedResolution rs (Some r) = Some r' /\ (r' == r)%Q.
Proof.
  intros Hd Hr.
  assert (H0 : exists r0, Js.get rs 0 = Some r0 /\ (r <= r0)%Q).
  { pose proof Hr as Hr'.
    apply list_elem_of_In, list_elem_of_lookup in Hr' as [j Hj].
    destruct rs as [|r0 rs]; [rewrite lookup_nil in Hj; discriminate|].
    exists r0. split; [reflexivity|].
    apply (descending_lookup (r0 :: rs) 0 j r0 r Hd); [lia | reflexivity | exact Hj]. }
  destruct H0 as (r0 & H0 & Hle).
  destruct (selected_not_finer rs r r0 H0 Hle) as (r' & Hsel & Hge).
  exists r'. split; [exact Hsel|].
  apply Qle_antisym; [| exact Hge].
  apply (selected_least rs r r' r Hd Hsel Hge Hr). apply Qle_refl.
Qed.

(** ** Lists without a repeated resolution *)

Lemma strictly_descending_cons (x : Q) (rs : list Q) :
  strictly_descending (x :: rs) = true ->
  strictly_descending rs = true /\ forall y, In y rs -> (y < x)%Q.
Proof.
  revert x. induction rs as [|y rs IH]; intros x H.
  - split; [reflexivity | intros ? []].
  - change (negb (Qle_bool x y) && strictly_descending (y :: rs) = true) in H.
    apply andb_true_iff in H as [Hyx Hd].
    assert (Hlt : (y < x)%Q) by (apply lt_Some; exact Hyx).
    split; [exact Hd|].
    intros z [<- | Hz]; [exact Hlt|].
    destruct (IH y Hd) as [_ Hall].
    eapply Qlt_trans; [apply Hall, Hz | exact Hlt].
Qed.

Lemma strictly_descending_lookup (rs : list Q) (i j : nat) (x y : Q) :
  strictly_descending rs = true -> (i < j)%nat ->
  rs !! i = Some x -> rs !! j = Some y -> (y < x)%Q.
Proof.
  revert i j. induction rs as [|r rs IH]; intros i j Hd Hij Hi Hj.
  - rewrite lookup_nil in Hi. discriminate.
  - destruct (strictly_descending_cons _ _ Hd) as [Hd' Hall].
    destruct i as [|i], j as [|j]; simpl in Hi, Hj; try lia.
    + injection Hi as <-. apply Hall, list_elem_of_In, list_elem_of_lookup. eauto.
    + apply (IH i j); [exact Hd' | lia | exact Hi | exact Hj].
Qed.

Lemma strictly_descending_descending (rs : list Q) :
  strictly_descending rs = true -> descending rs = true.
Proof.
  induction rs as [|x rs IH]; [reflexivity|].
  destruct rs as [|y rs]; [reflexivity|].
  intros H.
  change (negb (Qle_bool x y) && strictly_descending (y :: rs) = true) in H.
  apply andb_true_iff in H as [Hyx Hd].
  change (Qle_bool y x && descending (y :: rs) = true).
  apply andb_true_iff. split; [| exact (IH Hd)].
  apply Qle_bool_iff, Qlt_le_weak, lt_Some. exact Hyx.
Qed.

(** Equal values sit at the same index. *)
Lemma strictly_descending_index (rs : list Q) (i j : nat) (x y : Q) :
  strictly_descending rs = true ->
  rs !! i = Some x -> rs !! j = Some y -> (x == y)%Q -> i = j.
Proof.
  intros Hd Hi Hj Heq.
  destruct (lt_eq_lt_dec i j) as [[Hlt | ->] | Hgt]; [| reflexivity |].
  - pose proof (strictly_descending_lookup rs i j x y Hd Hlt Hi Hj) as H.
    rewrite Heq in H. exfalso. apply (Qlt_irrefl _ H).
  - pose proof (strictly_descending_lookup rs j i y x Hd Hgt Hj Hi) as H.
    rewrite Heq in H. exfalso. apply (Qlt_irrefl _ H).
Qed.

Lemma indexOf_strict (rs : list Q) (k : nat) (c : Q) :
  strictly_descending rs = true -> rs !! k = Some c ->
  Js.indexOf rs (Some c) = Z.of_nat k.
Proof.
  intros Hd Hk.
  destruct (indexOf_spec rs (Some c)) as [[_ Hnone] | (y & Hy & Hlo & _ & Heq)].
  - exfalso.
    assert (Hin : In c rs) by (apply list_elem_of_In, list_elem_of_lookup; eauto).
    apply Hnone in Hin.
    assert (E : Js.strict_eq (Some c) (Some c) = true)
      by (apply strict_eq_Some, Qeq_refl).
    congruence.
  - rewrite Z.sub_0_r in Hy. apply strict_eq_Some in Heq.
    pose proof (strictly_descending_index rs _ _ y c Hd Hy Hk Heq). lia.
Qed.

Lemma selected_entry_strict (rs : list Q) (k : nat) (r : Q) :
  strictly_descending rs = true -> rs !! k = Some r ->
  selectedResolution rs (Some r) = Some r.
Proof.
  intros Hd Hk.
  assert (Hin : In r rs) by (apply list_elem_of_In, list_elem_of_lookup; eauto).
  destruct (selected_entry rs r (strictly_descending_descending rs Hd) Hin)
    as (r' & Hsel & Heq).
  rewrite Hsel. f_equal.
  unfold selectedResolution in Hsel. apply get_Some in Hsel as [_ Hsel].
  pose proof (strictly_descending_index rs _ _ r' r Hd Hsel Hk Heq) as E.
  rewrite E in Hsel. congruence.
Qed.

Lemma max_ge_l (a b : Q) : (a <= Js.max a b)%Q.
Proof.
  unfold Js.max. destruct (Qle_bool a b) eqn:E.
  - now apply Qle_bool_iff.
  - apply Qle_refl.
Qed.

Lemma max_ge_r (a b : Q) : (b <= Js.max a b)%Q.
Proof.
  unfold Js.max. destruct (Qle_bool a b) eqn:E.
  - apply Qle_refl.
  - destruct (Qlt_le_dec a b) as [Hlt | Hle]; [| exact Hle].
    apply Qlt_le_weak, Qle_bool_iff in Hlt. congruence.
Qed.

Lemma max_le (a b c : Q) : (a <= c)%Q -> (b <= c)%Q -> (Js.max a b <= c)%Q.
Proof. intros Ha Hb. unfold Js.max. now destruct (Qle_bool a b). Qed.

Lemma selected_In (rs : list Q) (t : Js.Num) (r : Q) :
  selectedResolution rs t = Some r -> In r rs.
Proof.
  unfold selectedResolution. intros H. apply get_Some in H as [_ H].
  apply list_elem_of_In, list_elem_of_lookup. eauto.
Qed.

(** ** What the selected resolution is *)

(** X1.  When the first supported resolution is not below the target, the
    zoom level returned is the source map's zoom level for a supported
    resolution that is not below the target either: the page is never
    shown finer than asked. *)
Theorem zoom_never_finer {L M P : Type} (p : Panel L M P) (t r0 : Q) :
  Js.get (printResolutions p) 0 = Some r0 -> (t <= r0)%Q ->
  exists r,
    getZoomForResolution p (Some t)
    = OpenLayers.getZoomForResolution (sourceMap p) (Some r)
    /\ In r (printResolutions p) /\ (t <= r)%Q.
Proof.
  intros H0 Hle.
  destruct (selected_not_finer _ t r0 H0 Hle) as (r & Hsel & Hge).
  exists r. unfold getZoomForResolution. rewrite Hsel.
  split; [reflexivity|]. split; [eapply selected_In; exact Hsel | exact Hge].
Qed.

Lemma zoom_never_finer_demo :
  exists r,
    getZoomForResolution (Demo.demo_panel [100; 50; 25; 10]%Q) (Some 30%Q)
    = Qfloor r
    /\ In r [100; 50; 25; 10]%Q /\ (30 <= r)%Q.
Proof.
  apply (zoom_never_finer (Demo.demo_panel [100; 50; 25; 10]%Q) 30 100).
  - reflexivity.
  - apply Qle_bool_iff. reflexivity.
Defined.

(** X2.  A target above the first supported resolution selects the first
    one, whatever follows it in the list. *)
Theorem target_above_first (rs : list Q) (t r0 : Q) :
  Js.get rs 0 = Some r0 -> (r0 < t)%Q ->
  selectedResolution rs (Some t) = Some r0.
Proof.
  intros H0 Hlt. unfold selectedResolution.
  rewrite (scan_zero rs t r0 H0 Hlt). exact H0.
Qed.

Lemma target_above_first_demo :
  selectedResolution [100; 50; 25; 10]%Q (Some 250%Q) = Some 100%Q.
Proof.
  apply (target_above_first [100; 50; 25; 10]%Q 250 100); reflexivity.
Defined.

(** X3.  A target that no supported resolution is below selects the last
    entry of the list. *)
Theorem target_below_all (rs : list Q) (t : Q) :
  rs <> [] -> (forall r, In r rs -> (t <= r)%Q) ->
  exists r,
    Js.get rs (Z.of_nat (length rs) - 1) = Some r
    /\ selectedResolution rs (Some t) = Some r.
Proof.
  intros Hne Hall.
  assert (Hlen : (0 < Z.of_nat (length rs))%Z)
    by (destruct rs; [congruence | simpl length; lia]).
  destruct (get_in_range rs (Z.of_nat (length rs) - 1)) as (r & Hr & _); [lia|].
  exists r. split; [exact Hr|].
  unfold selectedResolution. rewrite (scan_all_above rs t Hall).
  now replace (Z.max 0 (Z.of_nat (length rs) - 1)) with (Z.of_nat (length rs) - 1)%Z by lia.
Qed.

Lemma target_below_all_demo :
  exists r,
    Js.get [100; 50; 25; 10]%Q 3 = Some r
    /\ selectedResolution [100; 50; 25; 10]%Q (Some 4%Q) = Some r.
Proof.
  apply (target_below_all [100; 50; 25; 10]%Q 4).
  - discriminate.
  - intros r [<- | [<- | [<- | [<- | []]]]]; apply Qle_bool_iff; reflexivity.
Defined.

(** X4.  On a descending list whose first entry is not below the target, the
    selected resolution is the closest supported one from above: it is not
    below the target, and every supported resolution that is not below the
    target is at least as large. *)
Theorem selected_closest_coarser (rs : list Q) (t r0 : Q) :
  descending rs = true -> Js.get rs 0 = Some r0 -> (t <= r0)%Q ->
  exists r,
    selectedResolution rs (Some t) = Some r
    /\ In r rs /\ (t <= r)%Q
    /\ forall x, In x rs -> (t <= x)%Q -> (r <= x)%Q.
Proof.
  intros Hd H0 Hle.
  destruct (selected_not_finer rs t r0 H0 Hle) as (r & Hsel & Hge).
  exists r. split; [exact Hsel|]. split; [eapply selected_In; exact Hsel|].
  split; [exact Hge|].
  intros x Hx Htx. exact (selected_least rs t r x Hd Hsel Hge Hx Htx).
Qed.

Lemma selected_closest_coarser_demo :
  exists r,
    selectedResolution [100; 50; 25; 10]%Q (Some 30%Q) = Some r
    /\ In r [100; 50; 25; 10]%Q /\ (30 <= r)%Q
    /\ forall x, In x [100; 50; 25; 10]%Q -> (30 <= x)%Q -> (r <= x)%Q.
Proof.
  apply (selected_closest_coarser [100; 50; 25; 10]%Q 30 100).
  - reflexivity.
  - reflexivity.
  - apply Qle_bool_iff. reflexivity.
Defined.

(** X5.  On a descending list that is not empty, selecting again from the
    selected resolution gives the same value: a resolution that was snapped
    is supported as it is. *)
Theorem snap_idempotent (rs : list Q) (t : Js.Num) :
  rs <> [] -> descending rs = true ->
  exists r r',
    selectedResolution rs t = Some r
    /\ selectedResolution rs (Some r) = Some r'
    /\ (r' == r)%Q.
Proof.
  intros Hne Hd.
  destruct (selected_in_list rs t Hne) as (r & Hsel & Hin).
  destruct (selected_entry rs r Hd Hin) as (r' & Hsel' & Heq).
  exists r, r'. auto.
Qed.

Lemma snap_idempotent_demo :
  exists r r',
    selectedResolution [100; 50; 25; 10]%Q (Some 30%Q) = Some r
    /\ selectedResolution [100; 50; 25; 10]%Q (Some r) = Some r'
    /\ (r' == r)%Q.
Proof.
  apply (snap_idempotent [100; 50; 25; 10]%Q (Some 30%Q)).
  - discriminate.
  - reflexivity.
Defined.

(** ** zoomToMaxExtent and the initial zoom *)

(** X6.  On a descending list the zoomToMaxExtent override sets the zoom
    level of the source map for the value of the first, coarsest, supported
    resolution. *)
Theorem zoomToMaxExtent_coarsest {L M P : Type} (p : Panel L M P) (r0 : Q) :
  descending (printResolutions p) = true ->
  Js.get (printResolutions p) 0 = Some r0 ->
  exists r,
    zoomToMaxExtent_zoom p = OpenLayers.getZoomForResolution (sourceMap p) (Some r)
    /\ In r (printResolutions p) /\ (r == r0)%Q.
Proof.
  intros Hd H0.
  assert (Hin : In r0 (printResolutions p)).
  { apply get_Some in H0 as [_ H0].
    apply list_elem_of_In, list_elem_of_lookup. eauto. }
  destruct (selected_entry _ r0 Hd Hin) as (r & Hsel & Heq).
  exists r. unfold zoomToMaxExtent_zoom, getZoomForResolution. rewrite H0, Hsel.
  split; [reflexivity|]. split; [eapply selected_In; exact Hsel | exact Heq].
Qed.

Lemma zoomToMaxExtent_demo :
  exists r,
    zoomToMaxExtent_zoom (Demo.demo_panel [100; 50; 25; 10]%Q) = Qfloor r
    /\ In r [100; 50; 25; 10]%Q /\ (r == 100)%Q.
Proof.
  apply (zoomToMaxExtent_coarsest (Demo.demo_panel [100; 50; 25; 10]%Q) 100);
    reflexivity.
Defined.

(** X7.  When neither quotient of the source extent by the size of the page
    is above the first supported resolution, the initial zoom level is the
    source map's for a supported resolution that is not below either
    quotient: at that resolution the extent of the source map fits the panel
    in both directions. *)
Theorem initial_zoom_covers {L M P : Type} (p : Panel L M P)
    (widthRatio heightRatio r0 : Q) :
  Js.get (printResolutions p) 0 = Some r0 ->
  (widthRatio <= r0)%Q -> (heightRatio <= r0)%Q ->
  exists r,
    initial_zoom p widthRatio heightRatio
    = OpenLayers.getZoomForResolution (sourceMap p) (Some r)
    /\ In r (printResolutions p)
    /\ (widthRatio <= r)%Q /\ (heightRatio <= r)%Q.
Proof.
  intros H0 Hw Hh.
  destruct (selected_not_finer _ (Js.max widthRatio heightRatio) r0 H0)
    as (r & Hsel & Hge); [now apply max_le|].
  exists r. unfold initial_zoom, getZoomForResolution, idealResolution.
  rewrite Hsel. split; [reflexivity|].
  split; [eapply selected_In; exact Hsel|].
  split; (eapply Qle_trans; [| exact Hge]); [apply max_ge_l | apply max_ge_r].
Qed.

Lemma initial_zoom_demo :
  exists r,
    initial_zoom (Demo.demo_panel [100; 50; 25; 10]%Q) 12 30 = Qfloor r
    /\ In r [100; 50; 25; 10]%Q
    /\ (12 <= r)%Q /\ (30 <= r)%Q.
Proof.
  apply (initial_zoom_covers (Demo.demo_panel [100; 50; 25; 10]%Q) 12 30 100).
  - reflexivity.
  - apply Qle_bool_iff. reflexivity.
  - apply Qle_bool_iff. reflexivity.
Defined.

(** ** zoomIn and zoomOut, step by step *)

(** X8.  On a descending list that is not empty, the resolution that the
    zoomIn and the zoomOut override end up with has the value of the entry
    they read from the list: the scan of getZoomForResolution does not move
    them to another resolution. *)
Theorem zoom_lands_on_entry (rs : list Q) (current : Js.Num) :
  rs <> [] -> descending rs = true ->
  (exists e r,
      zoomIn_resolution rs current = Some e
      /\ selectedResolution rs (Some e) = Some r /\ (r == e)%Q)
  /\ (exists e r,
        zoomOut_resolution rs current = Some e
        /\ selectedResolution rs (Some e) = Some r /\ (r == e)%Q).
Proof.
  intros Hne Hd.
  assert (Hlen : (0 < Z.of_nat (length rs))%Z)
    by (destruct rs; [congruence | simpl length; lia]).
  assert (Hidx : (-1 <= Js.indexOf rs current < Z.of_nat (length rs))%Z).
  { destruct (indexOf_spec rs current) as [[-> _] | (y & _ & Hlo & Hhi & _)]; lia. }
  split.
  - destruct (get_in_range rs (zoomIn_index rs current)) as (e & He & Hin);
      [unfold zoomIn_index; lia|].
    destruct (selected_entry rs e Hd Hin) as (r & Hsel & Heq).
    exists e, r. auto.
  - destruct (get_in_range rs (zoomOut_index rs current)) as (e & He & Hin);
      [unfold zoomOut_index; lia|].
    destruct (selected_entry rs e Hd Hin) as (r & Hsel & Heq).
    exists e, r. auto.
Qed.

Lemma zoom_lands_on_entry_demo :
  (exists e r,
      zoomIn_resolution [100; 50; 25; 10]%Q (Some 50%Q) = Some e
      /\ selectedResolution [100; 50; 25; 10]%Q (Some e) = Some r /\ (r == e)%Q)
  /\ (exists e r,
        zoomOut_resolution [100; 50; 25; 10]%Q (Some 50%Q) = Some e
        /\ selectedResolution [100; 50; 25; 10]%Q (Some e) = Some r /\ (r == e)%Q).
Proof.
  apply (zoom_lands_on_entry [100; 50; 25; 10]%Q (Some 50%Q)).
  - discriminate.
  - reflexivity.
Defined.

(** X9.  On a list without a repeated resolution, in descending order, zoomIn
    from an entry selects the next entry and zoomOut from that one selects
    the first again: one step in, one step out, back at the start. *)
Theorem zoom_step_round_trip (rs : list Q) (k : nat) (c f : Q) :
  strictly_descending rs = true ->
  rs !! k = Some c -> rs !! S k = Some f ->
  selectedResolution rs (zoomIn_resolution rs (Some c)) = Some f
  /\ selectedResolution rs (zoomOut_resolution rs (Some f)) = Some c.
Proof.
  intros Hd Hc Hf.
  pose proof (lookup_lt_Some _ _ _ Hf) as Hlen.
  split.
  - unfold zoomIn_resolution, zoomIn_index.
    rewrite (indexOf_strict rs k c Hd Hc).
    replace (Z.min (Z.of_nat k + 1) (Z.of_nat (length rs) - 1))
      with (Z.of_nat (S k)) by lia.
    replace (Js.get rs (Z.of_nat (S k))) with (Some f)
      by (symmetry; apply get_Some; split; [lia | now rewrite Nat2Z.id]).
    exact (selected_entry_strict rs (S k) f Hd Hf).
  - unfold zoomOut_resolution, zoomOut_index.
    rewrite (indexOf_strict rs (S k) f Hd Hf).
    replace (Z.max (Z.of_nat (S k) - 1) 0) with (Z.of_nat k) by lia.
    replace (Js.get rs (Z.of_nat k)) with (Some c)
      by (symmetry; apply get_Some; split; [lia | now rewrite Nat2Z.id]).
    exact (selected_entry_strict rs k c Hd Hc).
Qed.

Lemma zoom_step_demo :
  selectedResolution [100; 50; 25; 10]%Q
    (zoomIn_resolution [100; 50; 25; 10]%Q (Some 50%Q)) = Some 25%Q
  /\ selectedResolution [100; 50; 25; 10]%Q
       (zoomOut_resolution [100; 50; 25; 10]%Q (Some 25%Q)) = Some 50%Q.
Proof.
  apply (zoom_step_round_trip [100; 50; 25; 10]%Q 1 50 25); reflexivity.
Defined.

(** X10.  On a descending list in which the entry after the first occurrence
    of the current resolution has the same value, zoomIn selects the value of
    the current resolution again: it does not get past a resolution that two
    scales share. *)
Theorem zoomIn_stuck_on_repeat (rs : list Q) (c e : Q) :
  descending rs = true ->
  Js.get rs (Js.indexOf rs (Some c) + 1) = Some e -> (e == c)%Q ->
  exists r,
    selectedResolution rs (zoomIn_resolution rs (Some c)) = Some r /\ (r == c)%Q.
Proof.
  intros Hd He Heq.
  pose proof He as He'. apply get_Some in He' as [Hlo He'].
  pose proof (lookup_lt_Some _ _ _ He') as Hlen.
  assert (Hin : In e rs) by (apply list_elem_of_In, list_elem_of_lookup; eauto).
  destruct (selected_entry rs e Hd Hin) as (r & Hsel & Hre).
  exists r. split; [| now rewrite Hre].
  unfold zoomIn_resolution, zoomIn_index.
  replace (Z.min (Js.indexOf rs (Some c) + 1) (Z.of_nat (length rs) - 1))
    with (Js.indexOf rs (Some c) + 1)%Z by lia.
  rewrite He. exact Hsel.
Qed.

Lemma zoomIn_stuck_demo :
  In 10%Q [100; 50; 50; 10]%Q
  /\ exists r,
       selectedResolution [100; 50; 50; 10]%Q
         (zoomIn_resolution [100; 50; 50; 10]%Q (Some 50%Q)) = Some r
       /\ (r == 50)%Q.
Proof.
  split; [simpl; auto|].
  apply (zoomIn_stuck_on_repeat [100; 50; 50; 10]%Q 50 50); reflexivity.
Defined.

End Snapping.

(** * Recomputing the print resolutions and the layers *)

Module Recompute.

Import PrintData PrintMapPanel PrintMapPanelFacts Snapping.

Lemma descending_map (f : Q -> Q) (l : list Q) :
  (forall x y, (x <= y)%Q -> (f x <= f y)%Q) ->
  descending l = true -> descending (List.map f l) = true.
Proof.
  intros Hf. induction l as [|x l IH]; [reflexivity|].
  destruct l as [|y l]; [reflexivity|].
  intros H. change (Qle_bool y x && descending (y :: l) = true) in H.
  apply andb_true_iff in H as [Hyx Hd].
  change (Qle_bool (f y) (f x) && descending (List.map f (y :: l)) = true).
  apply andb_true_iff. split; [| exact (IH Hd)].
  apply Qle_bool_iff, Hf, Qle_bool_iff, Hyx.
Qed.

Section Loops.

Context {L M P : Type}.
Context `{!OpenLayers.Layer L} `{!OpenLayers.Util} `{!OpenLayers.View M} `{!PrintPage M P}.

Implicit Types p : Panel L M P.

Lemma updatePrintResolutions_eq p :
  updatePrintResolutions p
  = set_printResolutions (List.map (snap (sourceMap p)) (scales p)) p.
Proof.
  unfold updatePrintResolutions. rewrite each_updatePrintResolutions.
  now destruct p.
Qed.

Lemma copyLayers_eq p :
  copyLayers p
  = set_layers
      (List.map OpenLayers.clone
         (List.filter OpenLayers.getVisibility (OpenLayers.layers (sourceMap p)))) p.
Proof.
  unfold copyLayers. rewrite each_copyLayer. now destruct p.
Qed.

(** X11.  [updatePrintResolutions] starts from an empty list: what the list
    held before does not matter, a second run changes nothing, and no other
    field of the panel is touched. *)
Theorem updatePrintResolutions_fresh p (rs : list Q) :
  updatePrintResolutions (set_printResolutions rs p) = updatePrintResolutions p
  /\ updatePrintResolutions (updatePrintResolutions p) = updatePrintResolutions p
  /\ set_printResolutions (printResolutions p) (updatePrintResolutions p) = p.
Proof.
  rewrite !updatePrintResolutions_eq. now destruct p.
Qed.

(** X12.  When the resolution of a scale grows with the scale, the source
    map's snapping of a resolution to its zoom levels is monotone, and the
    scales come in descending order, the print resolutions come out in
    descending order, coarsest first. *)
Theorem printResolutions_descending p :
  (forall a b : Q, (a <= b)%Q ->
     (OpenLayers.getResolutionFromScale a (OpenLayers.getUnits (sourceMap p))
      <= OpenLayers.getResolutionFromScale b (OpenLayers.getUnits (sourceMap p)))%Q) ->
  (forall x y : Q, (x <= y)%Q ->
     (OpenLayers.getResolutionForZoom (sourceMap p)
        (OpenLayers.getZoomForResolution (sourceMap p) (Some x))
      <= OpenLayers.getResolutionForZoom (sourceMap p)
           (OpenLayers.getZoomForResolution (sourceMap p) (Some y)))%Q) ->
  descending (List.map value (scales p)) = true ->
  descending (printResolutions (updatePrintResolutions p)) = true.
Proof.
  intros Hres Hsnap Hd.
  rewrite updatePrintResolutions_eq. cbn [printResolutions set_printResolutions].
  pose proof (descending_map
                (fun v => OpenLayers.getResolutionForZoom (sourceMap p)
                   (OpenLayers.getZoomForResolution (sourceMap p)
                      (Some (OpenLayers.getResolutionFromScale v
                               (OpenLayers.getUnits (sourceMap p))))))
                (List.map value (scales p))) as Hmap.
  rewrite List.map_map in Hmap. apply Hmap; [| exact Hd].
  intros x y Hxy. apply Hsnap, Hres, Hxy.
Qed.

(** X13.  Without scales the list of print resolutions is empty, and then
    getZoomForResolution, for any target, and the zoomToMaxExtent override
    ask the source map for the zoom level of [undefined]. *)
Theorem no_scales p (t : Js.Num) :
  scales p = [] ->
  printResolutions (updatePrintResolutions p) = []
  /\ getZoomForResolution (updatePrintResolutions p) t
     = OpenLayers.getZoomForResolution (sourceMap p) None
  /\ zoomToMaxExtent_zoom (updatePrintResolutions p)
     = OpenLayers.getZoomForResolution (sourceMap p) None.
Proof.
  intros Hs. rewrite updatePrintResolutions_eq, Hs.
  unfold zoomToMaxExtent_zoom, getZoomForResolution.
  cbn [printResolutions set_printResolutions sourceMap List.map].
  auto.
Qed.

(** X14.  When snapping twice is snapping once on the source map (the zoom
    level for the resolution of the zoom level for a resolution is that zoom
    level), and there is a scale, the zoom level that getZoomForResolution
    returns after [updatePrintResolutions] is, for any target, the zoom level
    of the source map for the resolution of one of the scales. *)
Theorem zoom_of_a_scale p (t : Js.Num) :
  (forall x : Q,
     OpenLayers.getZoomForResolution (sourceMap p)
       (Some (OpenLayers.getResolutionForZoom (sourceMap p)
                (OpenLayers.getZoomForResolution (sourceMap p) (Some x))))
     = OpenLayers.getZoomForResolution (sourceMap p) (Some x)) ->
  scales p <> [] ->
  exists s,
    In s (scales p)
    /\ getZoomForResolution (updatePrintResolutions p) t
       = OpenLayers.getZoomForResolution (sourceMap p)
           (Some (OpenLayers.getResolutionFromScale (value s)
                    (OpenLayers.getUnits (sourceMap p)))).
Proof.
  intros Hround Hne.
  rewrite updatePrintResolutions_eq. unfold getZoomForResolution.
  cbn [printResolutions set_printResolutions sourceMap].
  destruct (selected_in_list (List.map (snap (sourceMap p)) (scales p)) t)
    as (r & Hsel & Hin).
  { destruct (scales p); [congruence | discriminate]. }
  apply List.in_map_iff in Hin as (s & <- & Hs).
  exists s. split; [exact Hs|].
  rewrite Hsel. unfold snap. apply Hround.
Qed.

(** X15.  The layers of the preview map are computed from the source map
    alone: a list of layers given to the panel beforehand is dropped, a
    second run changes nothing, no other field of the panel is touched, and
    there are never more layers than the source map has. *)
Theorem copyLayers_fresh p (ls : list L) :
  copyLayers (set_layers ls p) = copyLayers p
  /\ copyLayers (copyLayers p) = copyLayers p
  /\ set_layers (layers p) (copyLayers p) = p
  /\ (length (layers (copyLayers p))
      <= length (OpenLayers.layers (sourceMap p)))%nat.
Proof.
  rewrite !copyLayers_eq.
  split; [now destruct p|]. split; [now destruct p|]. split; [now destruct p|].
  cbn [layers set_layers]. rewrite List.length_map. apply List.filter_length_le.
Qed.

End Loops.

Import Demo.

Lemma demo_snap_monotone (x y : Q) :
  (x <= y)%Q -> (inject_Z (Qfloor x) <= inject_Z (Qfloor y))%Q.
Proof.
  intros H. rewrite <- Zle_Qle. now apply Qfloor_resp_le.
Qed.

Lemma printResolutions_descending_demo :
  descending (printResolutions (updatePrintResolutions (demo_panel []))) = true.
Proof.
  apply (printResolutions_descending (demo_panel [])).
  - intros a b Hab. change (a * / 4 <= b * / 4)%Q.
    apply Qmult_le_compat_r; [exact Hab | apply Qle_bool_iff; reflexivity].
  - intros x y Hxy. cbn. now apply demo_snap_monotone.
  - reflexivity.
Defined.

Lemma no_scales_demo :
  printResolutions
    (updatePrintResolutions (set_scales_demo (demo_panel [100; 50]%Q))) = []
  /\ getZoomForResolution
       (updatePrintResolutions (set_scales_demo (demo_panel [100; 50]%Q))) (Some 60%Q)
     = 0%Z
  /\ zoomToMaxExtent_zoom
       (updatePrintResolutions (set_scales_demo (demo_panel [100; 50]%Q)))
     = 0%Z.
Proof.
  exact (no_scales (set_scales_demo (demo_panel [100; 50]%Q)) (Some 60%Q) eq_refl).
Defined.

Lemma zoom_of_a_scale_demo :
  exists s,
    In s (scales (demo_panel []))
    /\ getZoomForResolution (updatePrintResolutions (demo_panel [])) (Some 30%Q)
       = Qfloor (value s / 4).
Proof.
  destruct (zoom_of_a_scale (demo_panel []) (Some 30%Q)) as (s & Hs & E).
  - intros x. cbn. apply Qfloor_Z.
  - discriminate.
  - exists s. split; [exact Hs | exact E].
Defined.

End Recompute.

(** * More on the update cycle: user actions, fuel, and settling *)

Module UpdateCycleMore.

Import PrintData PrintMapPanel UpdateCycle.

Lemma guarded_no_fits (cs : list Call) : forallb guarded cs = true -> fits cs = 0%nat.
Proof.
  unfold fits. induction cs as [|c cs IH]; [reflexivity|].
  cbn [forallb List.filter]. intros H. apply andb_true_iff in H as [Hc Hcs].
  destruct c; cbn in *; try discriminate; now apply IH.
Qed.

Lemma fits_app (xs ys : list Call) : fits (xs ++ ys) = (fits xs + fits ys)%nat.
Proof. unfold fits. now rewrite List.filter_app, length_app. Qed.

Section Cycle.

Context {L M P : Type}.
Context `{!OpenLayers.Layer L} `{!OpenLayers.Util} `{!OpenLayers.View M} `{!PrintPage M P}.

Implicit Types p q : Panel L M P.

Lemma record_all_snoc (cs : list Call) (c : Call) p :
  record_all (cs ++ [c]) p = record c (record_all cs p).
Proof. unfold record_all. now rewrite fold_left_app. Qed.

Lemma record_all_fields (cs : list Call) p :
  record_all cs p
  = {| sourceMap := sourceMap p; scales := scales p;
       printResolutions := printResolutions p; layers := layers p;
       map := map p; printPage := printPage p; _updating := _updating p;
       calls := calls p ++ cs |}.
Proof.
  revert p. induction cs as [|c cs IH]; intros p.
  - cbn. rewrite app_nil_r. now destruct p.
  - change (record_all (c :: cs) p) with (record_all cs (record c p)).
    rewrite IH. cbn. now rewrite <- app_assoc.
Qed.

(** The exact state after the "moveend" events that find the guard set. *)
Lemma fire_guarded_exact (n fuel : nat) p :
  _updating p = true ->
  fire n (updatePage (S fuel)) p = Some (record_all (repeat (Moveend true) n) p).
Proof.
  revert p. induction n as [|n IH]; intros p Hg; cbn [fire repeat].
  - reflexivity.
  - rewrite (updatePage_guarded fuel p Hg). cbn [mbind option_bind].
    now rewrite IH.
Qed.

(** The exact state after [fitZoom]; the fuel does not occur in it. *)
Lemma fitZoom_exact (fuel : nat) p :
  fitZoom (S fuel) p
  = Some (set_updating false
            (if (OpenLayers.getZoom (map p) =? fitZoom_zoom p)%Z
             then set_updating true p
             else record_all
                    (repeat (Moveend true)
                       (OpenLayers.zoomTo_moveend (fitZoom_zoom p) (map p)))
                    (set_map (OpenLayers.zoomTo (fitZoom_zoom p) (map p))
                       (record (CallZoomTo (fitZoom_zoom p))
                          (set_updating true p))))).
Proof.
  unfold fitZoom, fitZoom_with. fold (fitZoom_zoom p). cbn [map set_updating].
  destruct (OpenLayers.getZoom (map p) =? fitZoom_zoom p)%Z; [reflexivity|].
  unfold map_zoomTo. cbn [map set_updating record].
  rewrite fire_guarded_exact; reflexivity.
Qed.

Lemma fire_ext (n : nat) (l1 l2 : Listener) p :
  (forall q, l1 q = l2 q) -> fire n l1 p = fire n l2 p.
Proof.
  intros Hext. revert p. induction n as [|n IH]; intros p; cbn [fire].
  - reflexivity.
  - rewrite Hext. destruct (l2 p) as [q|]; cbn; [apply IH | reflexivity].
Qed.

Lemma updatePage_fuel (fuel : nat) p :
  updatePage (S (S fuel)) p = updatePage 2 p.
Proof.
  change (updatePage_with (fitZoom (S fuel)) p = updatePage_with (fitZoom 1) p).
  unfold updatePage_with.
  destruct (_updating (record (Moveend (_updating p)) p)); [reflexivity|].
  unfold printPage_fit. apply fire_ext. intros q.
  now rewrite !fitZoom_exact.
Qed.

(** "change" events answered by [fitZoom], starting with the guard clear. *)
Lemma fire_fitZoom_idle (n fuel : nat) p :
  _updating p = false ->
  exists p' new,
    fire n (fitZoom (S fuel)) p = Some p'
    /\ calls p' = calls p ++ new
    /\ forallb guarded new = true
    /\ printPage p' = printPage p
    /\ _updating p' = false.
Proof.
  revert p. induction n as [|n IH]; intros p Hu; cbn [fire].
  - exists p, []. rewrite app_nil_r. auto.
  - destruct (fitZoom_run fuel p) as (q & Hrun & Hc & Hpg & Hq).
    rewrite Hrun. cbn [mbind option_bind].
    destruct (IH q Hq) as (p' & new & Hrun' & Hc' & Hg & Hpg' & Hu').
    exists p', (fitZoom_calls p ++ new). split; [exact Hrun'|].
    rewrite Hc', Hc, Hpg', Hpg, <- app_assoc, forallb_app, Hg, fitZoom_calls_guarded.
    auto.
Qed.

Lemma updatePage_once (fuel : nat) p :
  _updating p = false ->
  exists p' new,
    updatePage (S (S fuel)) p = Some p'
    /\ calls p' = calls p ++ new
    /\ fits new = 1%nat
    /\ printPage p' = fit (map p) (printPage p)
    /\ _updating p' = false.
Proof.
  intros Hg.
  change (updatePage (S (S fuel)) p) with (updatePage_with (fitZoom (S fuel)) p).
  unfold updatePage_with. cbn [_updating record]. rewrite Hg.
  unfold printPage_fit.
  destruct (fire_fitZoom_idle
              (fit_change (map (record (Moveend false) p))
                 (printPage (record (Moveend false) p)))
              fuel
              (set_printPage
                 (fit (map (record (Moveend false) p))
                    (printPage (record (Moveend false) p)))
                 (record CallFit (record (Moveend false) p))))
    as (p' & new & Hrun & Hc & Hgd & Hpg & Hu); [exact Hg|].
  exists p', (Moveend false :: CallFit :: new). split; [exact Hrun|].
  rewrite Hc, Hpg. cbn [calls set_printPage record printPage map].
  rewrite <- !app_assoc. split; [reflexivity|].
  split; [| auto].
  change (Moveend false :: CallFit :: new) with ([Moveend false; CallFit] ++ new).
  rewrite fits_app, (guarded_no_fits new Hgd). reflexivity.
Qed.

Lemma fire_updatePage_idle (n fuel : nat) p :
  _updating p = false ->
  exists p' new,
    fire n (updatePage (S (S fuel))) p = Some p'
    /\ calls p' = calls p ++ new
    /\ fits new = n
    /\ _updating p' = false.
Proof.
  revert p. induction n as [|n IH]; intros p Hu; cbn [fire].
  - exists p, []. rewrite app_nil_r. auto.
  - destruct (updatePage_once fuel p Hu) as (q & new1 & Hrun & Hc & Hf & _ & Hq).
    rewrite Hrun. cbn [mbind option_bind].
    destruct (IH q Hq) as (p' & new2 & Hrun' & Hc' & Hf' & Hu').
    exists p', (new1 ++ new2). split; [exact Hrun'|].
    rewrite Hc', Hc, <- app_assoc, fits_app, Hf, Hf'. auto.
Qed.

(** X16.  Listeners never nest deeper than two levels: [fitZoom] returns
    with fuel 1 and [updatePage] with fuel 2, and any more fuel gives the
    same state. *)
Theorem listener_nesting_bounded (fuel1 fuel2 : nat) p :
  (1 <= fuel1)%nat -> (2 <= fuel2)%nat ->
  fitZoom fuel1 p = fitZoom 1 p
  /\ updatePage fuel2 p = updatePage 2 p
  /\ is_Some (fitZoom 1 p)
  /\ is_Some (updatePage 2 p).
Proof.
  intros Hfuel1 Hfuel2.
  destruct fuel1 as [|f1]; [lia|]. destruct fuel2 as [|[|f2]]; [lia | lia |].
  split; [now rewrite !fitZoom_exact|].
  split; [apply updatePage_fuel|].
  split; [rewrite fitZoom_exact; eauto|].
  destruct (_updating p) eqn:Hu.
  - rewrite (updatePage_guarded 1 p Hu). eauto.
  - destruct (updatePage_once 0 p Hu) as (p' & new & Hrun & _). rewrite Hrun. eauto.
Qed.

(** X17.  A "moveend" that finds the guard clear, a change of the view by
    the user, leads to exactly one [fit] of the page, whatever events the
    [fit] and the [zoomTo] it may cause trigger in turn; the page is then the
    one fitted to the map, and the guard is clear again. *)
Theorem user_move_fits_once (fuel : nat) p :
  _updating p = false -> (2 <= fuel)%nat ->
  exists p' new,
    updatePage fuel p = Some p'
    /\ calls p' = calls p ++ new
    /\ fits new = 1%nat
    /\ printPage p' = fit (map p) (printPage p)
    /\ _updating p' = false.
Proof.
  intros Hu Hfuel. destruct fuel as [|[|fuel]]; [lia | lia |].
  exact (updatePage_once fuel p Hu).
Qed.

(** X18.  The zoomIn and the zoomOut override, called with the guard clear,
    return.  The first call they make is their [zoomTo]; among the calls
    that follow, the page is fitted exactly once for every "moveend" that
    this [zoomTo] triggers, and the guard is clear at the end.  The calls
    that follow may hold further [zoomTo] calls, made by the [fitZoom] that
    a [fit] of the page causes; these are not counted or bounded here. *)
Theorem zoom_override_fits_per_moveend (fuel : nat) p :
  _updating p = false -> (2 <= fuel)%nat ->
  (exists p' new,
      zoomIn fuel p = Some p'
      /\ calls p'
         = calls p
           ++ CallZoomTo
                (getZoomForResolution p
                   (zoomIn_resolution (printResolutions p)
                      (OpenLayers.getResolution (map p))))
              :: new
      /\ fits new
         = OpenLayers.zoomTo_moveend
             (getZoomForResolution p
                (zoomIn_resolution (printResolutions p)
                   (OpenLayers.getResolution (map p))))
             (map p)
      /\ _updating p' = false)
  /\ (exists p' new,
        zoomOut fuel p = Some p'
        /\ calls p'
           = calls p
             ++ CallZoomTo
                  (getZoomForResolution p
                     (zoomOut_resolution (printResolutions p)
                        (OpenLayers.getResolution (map p))))
                :: new
        /\ fits new
           = OpenLayers.zoomTo_moveend
               (getZoomForResolution p
                  (zoomOut_resolution (printResolutions p)
                     (OpenLayers.getResolution (map p))))
               (map p)
        /\ _updating p' = false).
Proof.
  intros Hu Hfuel. destruct fuel as [|[|fuel]]; [lia | lia |].
  split.
  - unfold zoomIn, map_zoomTo.
    set (z := getZoomForResolution p
                (zoomIn_resolution (printResolutions p)
                   (OpenLayers.getResolution (map p)))).
    destruct (fire_updatePage_idle (OpenLayers.zoomTo_moveend z (map p)) fuel
                (set_map (OpenLayers.zoomTo z (map p)) (record (CallZoomTo z) p)))
      as (p' & new & Hrun & Hc & Hf & Hu'); [exact Hu|].
    exists p', new. split; [exact Hrun|].
    rewrite Hc. cbn [calls set_map record]. rewrite <- app_assoc. auto.
  - unfold zoomOut, map_zoomTo.
    set (z := getZoomForResolution p
                (zoomOut_resolution (printResolutions p)
                   (OpenLayers.getResolution (map p)))).
    destruct (fire_updatePage_idle (OpenLayers.zoomTo_moveend z (map p)) fuel
                (set_map (OpenLayers.zoomTo z (map p)) (record (CallZoomTo z) p)))
      as (p' & new & Hrun & Hc & Hf & Hu'); [exact Hu|].
    exists p', new. split; [exact Hrun|].
    rewrite Hc. cbn [calls set_map record]. rewrite <- app_assoc. auto.
Qed.

(** X19.  When the map takes the zoom level that [fitZoom] asks for, and its
    base layer keeps its units, [fitZoom] settles: after one run the map is
    at the zoom level of the page, and a second run makes no call and leaves
    the panel as it is. *)
Theorem fitZoom_settles (fuel : nat) p :
  OpenLayers.getZoom (OpenLayers.zoomTo (fitZoom_zoom p) (map p)) = fitZoom_zoom p ->
  OpenLayers.baseLayer_units (OpenLayers.zoomTo (fitZoom_zoom p) (map p))
  = OpenLayers.baseLayer_units (map p) ->
  (1 <= fuel)%nat ->
  exists p1,
    fitZoom fuel p = Some p1
    /\ OpenLayers.getZoom (map p1) = fitZoom_zoom p
    /\ fitZoom_calls p1 = []
    /\ fitZoom fuel p1 = Some p1.
Proof.
  intros Hzoom Hunits Hfuel. destruct fuel as [|fuel]; [lia|].
  rewrite fitZoom_exact.
  set (p1 := set_updating false _).
  assert (Hz : OpenLayers.getZoom (map p1) = fitZoom_zoom p).
  { subst p1. destruct (Z.eqb_spec (OpenLayers.getZoom (map p)) (fitZoom_zoom p)) as [E|_].
    - exact E.
    - rewrite record_all_fields. cbn. apply Hzoom. }
  assert (Hsame : fitZoom_zoom p1 = fitZoom_zoom p).
  { subst p1. destruct (OpenLayers.getZoom (map p) =? fitZoom_zoom p)%Z.
    - reflexivity.
    - rewrite record_all_fields. unfold fitZoom_zoom at 1.
      unfold getZoomForResolution.
      cbn [sourceMap printResolutions printPage map set_map set_updating record].
      rewrite Hunits. reflexivity. }
  assert (Hu : _updating p1 = false) by reflexivity.
  assert (Heqb : (OpenLayers.getZoom (map p1) =? fitZoom_zoom p1)%Z = true)
    by (apply Z.eqb_eq; congruence).
  exists p1. split; [reflexivity|]. split; [exact Hz|].
  split; [unfold fitZoom_calls; now rewrite Heqb|].
  rewrite fitZoom_exact, Heqb. reflexivity.
Qed.

End Cycle.

Import Demo.

Lemma listener_nesting_demo :
  fitZoom 7 (demo_panel [100; 50; 25; 10]%Q) = fitZoom 1 (demo_panel [100; 50; 25; 10]%Q)
  /\ updatePage 7 (demo_panel [100; 50; 25; 10]%Q)
     = updatePage 2 (demo_panel [100; 50; 25; 10]%Q)
  /\ is_Some (fitZoom 1 (demo_panel [100; 50; 25; 10]%Q))
  /\ is_Some (updatePage 2 (demo_panel [100; 50; 25; 10]%Q)).
Proof.
  apply (listener_nesting_bounded 7 7 (demo_panel [100; 50; 25; 10]%Q)); lia.
Defined.

(** On the demo panel the user's "moveend" fits the page to the map at zoom
    level 25; the "change" that follows zooms the map to the supported
    resolution for the new scale, and the "moveend" of that is swallowed. *)
Lemma user_move_demo :
  exists p' new,
    updatePage 2 (demo_panel [100; 50; 25; 10]%Q) = Some p'
    /\ calls p' = new
    /\ fits new = 1%nat
    /\ printPage p' = {| name := "fit"; value := 100 |}
    /\ _updating p' = false.
Proof.
  destruct (user_move_fits_once 2 (demo_panel [100; 50; 25; 10]%Q) eq_refl)
    as (p' & new & H1 & H2 & H3 & H4 & H5); [lia|].
  exists p', new. auto.
Defined.

Lemma zoom_override_demo :
  (exists p' new,
      zoomIn 2 (demo_panel [100; 50; 25; 10]%Q) = Some p'
      /\ calls p' = CallZoomTo 10 :: new
      /\ fits new = 1%nat
      /\ _updating p' = false)
  /\ (exists p' new,
        zoomOut 2 (demo_panel [100; 50; 25; 10]%Q) = Some p'
        /\ calls p' = CallZoomTo 50 :: new
        /\ fits new = 1%nat
        /\ _updating p' = false).
Proof.
  destruct (zoom_override_fits_per_moveend 2 (demo_panel [100; 50; 25; 10]%Q) eq_refl)
    as [(p1 & n1 & A1 & A2 & A3 & A4) (p2 & n2 & B1 & B2 & B3 & B4)]; [lia|].
  split; [exists p1, n1 | exists p2, n2]; auto.
Defined.

Lemma fitZoom_settles_demo :
  exists p1,
    fitZoom 1 (demo_panel [100; 50; 25; 10]%Q) = Some p1
    /\ OpenLayers.getZoom (map p1) = 50%Z
    /\ fitZoom_calls p1 = []
    /\ fitZoom 1 p1 = Some p1.
Proof.
  destruct (fitZoom_settles 1 (demo_panel [100; 50; 25; 10]%Q))
    as (p1 & H1 & H2 & H3 & H4).
  - reflexivity.
  - reflexivity.
  - lia.
  - exists p1. auto.
Defined.

End UpdateCycleMore.

(** * More on the WMS legend: errors, the whole update, the request *)

Module WMSLegendMore.

Import WMSLegend WMSLegendFacts.

Lemma imageUrls_reconciled (url : option string) (its : list Item) :
  imageUrls (if hasImage its then refresh url <$> its else its ++ [LegendImage url])
  = repeat url (Nat.max 1 (length (imageUrls its))).
Proof.
  rewrite (hasImage_urls its).
  destruct (length (imageUrls its)) as [|n] eqn:En; cbn [Nat.eqb negb].
  - rewrite imageUrls_app. apply length_zero_iff_nil in En. rewrite En. reflexivity.
  - rewrite imageUrls_refresh, En. reflexivity.
Qed.

Section Legend.

Context {B : Type} `{!WMS.Bounds B}.

Implicit Types lg : Legend B.

(** ** When the loop over the items throws *)

(** Past the label, a second label is asked to [setUrl]. *)
Lemma eachFrom_past_label_error lg (url : option string) (textCmp : option nat)
    (its : list Item) (i : nat) (st : list Item * bool) :
  getLegendUrl lg = Ok url ->
  (forall j : nat, (i <= j)%nat -> textCmp <> Some j) ->
  (1 <= labels its)%nat ->
  eachFrom lg textCmp i its st = TypeError.
Proof.
  intros Hurl. revert i st.
  induction its as [|it its IH]; intros i [done found] Htc Hl; cbn [eachFrom].
  - cbn in Hl. lia.
  - rewrite labels_cons in Hl. unfold setUrl_fn.
    destruct (decide (textCmp = Some i)) as [E|_].
    { exfalso. apply (Htc i); [lia | exact E]. }
    rewrite Hurl. destruct it as [t|u]; cbn [bind setUrl isXType_label] in *.
    + reflexivity.
    + apply IH; [intros j Hj; apply Htc; lia | lia].
Qed.

Lemma eachFrom_two_labels_error lg (url : option string)
    (its : list Item) (i : nat) (st : list Item * bool) :
  getLegendUrl lg = Ok url ->
  (2 <= labels its)%nat ->
  eachFrom lg (findFrom isXType_label its i) i its st = TypeError.
Proof.
  intros Hurl. revert i st.
  induction its as [|it its IH]; intros i [done found] Hl; cbn [eachFrom findFrom].
  - cbn in Hl. lia.
  - rewrite labels_cons in Hl. unfold setUrl_fn.
    destruct it as [t|u]; cbn [isXType_label] in *.
    + destruct (decide (Some i = Some i)) as [_|N]; [|congruence].
      cbn [bind].
      apply (eachFrom_past_label_error lg url); [exact Hurl | | lia].
      intros j Hj [= ->]. lia.
    + destruct (decide (findFrom isXType_label its (S i) = Some i)) as [E|_].
      { apply findFrom_ge in E. lia. }
      rewrite Hurl. cbn [bind setUrl]. apply IH. exact Hl.
Qed.

(** Without a layer the loop throws at the first item that is not the label,
    and else leaves [found] as it was. *)
Lemma eachFrom_no_layer lg (textCmp : option nat)
    (its : list Item) (i : nat) (done : list Item) :
  getLegendUrl lg = TypeError ->
  eachFrom lg textCmp i its (done, false) = TypeError
  \/ exists done', eachFrom lg textCmp i its (done, false) = Ok (done', false).
Proof.
  intros Hurl. revert i done.
  induction its as [|it its IH]; intros i done; cbn [eachFrom].
  - right. eauto.
  - unfold setUrl_fn. destruct (decide (textCmp = Some i)) as [_|_].
    + cbn [bind]. apply IH.
    + rewrite Hurl. left. reflexivity.
Qed.

Lemma reconcile_no_layer lg :
  getLayer lg = None -> reconcileLegendItems lg = TypeError.
Proof.
  intros Hlayer.
  assert (Hurl : getLegendUrl lg = TypeError)
    by (unfold getLegendUrl; now rewrite Hlayer).
  unfold reconcileLegendItems.
  destruct (eachFrom_no_layer lg (find isXType_label (items lg)) (items lg) 0 [] Hurl)
    as [-> | (done' & ->)]; [reflexivity|].
  cbn [bind]. now rewrite Hurl.
Qed.

Lemma reconcile_two_labels lg (layer : WMS.Layer B) :
  getLayer lg = Some layer -> (2 <= labels (items lg))%nat ->
  reconcileLegendItems lg = TypeError.
Proof.
  intros Hlayer Hl.
  assert (Hurl : getLegendUrl lg = Ok (getLegendUrl_of layer))
    by (unfold getLegendUrl; now rewrite Hlayer).
  unfold reconcileLegendItems, find.
  now rewrite (eachFrom_two_labels_error lg (getLegendUrl_of layer)).
Qed.

Lemma reconcile_Ok_inv lg lg1 :
  reconcileLegendItems lg = Ok lg1 ->
  exists layer, getLayer lg = Some layer /\ (labels (items lg) <= 1)%nat.
Proof.
  intros Hrun. destruct (getLayer lg) as [layer|] eqn:Hlayer.
  - exists layer. split; [reflexivity|].
    destruct (le_lt_dec (labels (items lg)) 1) as [Hle | Hgt]; [exact Hle|].
    rewrite (reconcile_two_labels lg layer Hlayer) in Hrun; [discriminate | lia].
  - rewrite (reconcile_no_layer lg Hlayer) in Hrun. discriminate.
Qed.

(** X20.  [reconcileLegendItems] returns exactly when the legend has its
    layer and one label at most; without the layer, or with a second label
    (which it would ask to [setUrl]), it ends in a TypeError. *)
Theorem reconcile_returns_iff lg :
  (exists lg1, reconcileLegendItems lg = Ok lg1)
  <-> (is_Some (getLayer lg) /\ (labels (items lg) <= 1)%nat).
Proof.
  split.
  - intros [lg1 Hrun]. destruct (reconcile_Ok_inv lg lg1 Hrun) as (layer & Hl & Hle).
    split; [rewrite Hl; eauto | exact Hle].
  - intros [[layer Hlayer] Hle]. eexists. exact (reconcile_returns lg layer Hlayer Hle).
Qed.

(** ** The whole update *)

Context `{!LayerLegend B}.

(** X21.  When [update] returns for a layer that is attached to a map, the
    legend as the inherited update left it had a layer, and afterwards the
    legend shows at least one image: every image that the inherited update
    left, or one new image if it left none, each with the legend URL of that
    layer. *)
Theorem update_shows_legend lg lg' (layer : WMS.Layer B) (m : WMS.Map B) :
  getLayer lg = Some layer -> WMS.map layer = Some m ->
  update lg = Ok lg' ->
  exists layer',
    getLayer (superclass_update lg) = Some layer'
    /\ getLayer lg' = Some layer'
    /\ imageUrls (items lg')
       = repeat (getLegendUrl_of layer')
           (Nat.max 1 (length (imageUrls (items (superclass_update lg))))).
Proof.
  intros Hlayer Hmap Hrun. unfold update in Hrun. rewrite Hlayer, Hmap in Hrun.
  destruct (reconcile_Ok_inv _ _ Hrun) as (layer' & Hlayer' & Hle).
  rewrite (reconcile_returns _ layer' Hlayer' Hle) in Hrun.
  injection Hrun as <-.
  exists layer'. split; [exact Hlayer'|]. split; [exact Hlayer'|].
  cbn [items set_items]. apply imageUrls_reconciled.
Qed.

(** X22.  On a legend whose layer is gone, [update] returns at once and
    leaves the legend as it was, although [getLegendUrl] and the
    reconciliation of the items would each end in a TypeError there. *)
Theorem update_without_layer lg :
  getLayer lg = None ->
  update lg = Ok lg
  /\ getLegendUrl lg = TypeError
  /\ reconcileLegendItems lg = TypeError.
Proof.
  intros Hlayer. split; [unfold update; now rewrite Hlayer|].
  split; [unfold getLegendUrl; now rewrite Hlayer|].
  now apply reconcile_no_layer.
Qed.

(** ** The request *)

(** X23.  The request for the legend takes BBOX, WIDTH, HEIGHT and REQUEST
    from the legend, whatever the layer's own parameters say: the size is the
    image size of the adjusted extent, and REQUEST is GetLegendGraphic.  Any
    parameter other than these and LAYERS is not set by the legend and
    reaches the request as the layer has it. *)
Theorem legend_request_parameters (layer : WMS.Layer B) (extent : B) (k : string) :
  k <> "BBOX"%string -> k <> "WIDTH"%string -> k <> "HEIGHT"%string ->
  k <> "REQUEST"%string -> k <> "LAYERS"%string ->
  newParams layer extent !! k = None
  /\ WMS.requestParams layer (newParams layer extent) !! k = WMS.params layer !! k
  /\ WMS.requestParams layer (newParams layer extent) !! "REQUEST"%string
     = Some (WMS.PString "GetLegendGraphic")
  /\ WMS.requestParams layer (newParams layer extent) !! "WIDTH"%string
     = Some (WMS.PNumber
               (WMS.w (WMS.getImageSize layer (WMS.adjustBounds layer extent))))
  /\ WMS.requestParams layer (newParams layer extent) !! "HEIGHT"%string
     = Some (WMS.PNumber
               (WMS.h (WMS.getImageSize layer (WMS.adjustBounds layer extent))))
  /\ WMS.requestParams layer (newParams layer extent) !! "BBOX"%string
     = Some (if WMS.encodeBBOX layer
             then WMS.PString
                    (WMS.toBBOX (WMS.adjustBounds layer extent)
                       (WMS.reverseAxisOrder layer))
             else WMS.PNumbers
                    (WMS.toArray (WMS.adjustBounds layer extent)
                       (WMS.reverseAxisOrder layer))).
Proof.
  intros Hb Hw Hh Hr Hl.
  assert (Hnone : newParams layer extent !! k = None).
  { unfold newParams. destruct (WMS.legendLayers layer); now simplify_map_eq. }
  split; [exact Hnone|].
  split; [unfold WMS.requestParams; now apply lookup_union_r|].
  unfold WMS.requestParams, newParams.
  destruct (WMS.legendLayers layer);
    repeat split; apply lookup_union_Some_l; now simplify_map_eq.
Qed.

End Legend.

Import Demo.

Lemma reconcile_returns_iff_demo :
  (exists lg1,
      reconcileLegendItems
        (demo_legend (demo_wms demo_attached None) [Label "BGT"; LegendImage None])
      = Ok lg1)
  /\ ~ (exists lg1,
          reconcileLegendItems
            (demo_legend (demo_wms demo_attached None) [Label "BGT"; Label "again"])
          = Ok lg1).
Proof.
  split.
  - apply (reconcile_returns_iff
             (demo_legend (demo_wms demo_attached None) [Label "BGT"; LegendImage None])).
    split; [cbn; eauto | cbn; lia].
  - intros H.
    apply (reconcile_returns_iff
             (demo_legend (demo_wms demo_attached None) [Label "BGT"; Label "again"])) in H.
    destruct H as [_ H]. cbn in H. lia.
Defined.

(** On the demo legend the old URL of the image is replaced. *)
Lemma update_shows_legend_demo :
  exists layer',
    getLayer
      (superclass_update
         (demo_legend (demo_wms demo_attached None)
            [Label "old"; LegendImage (Some "stale"%string)]))
    = Some layer'
    /\ imageUrls
         (items
            (demo_legend (demo_wms demo_attached None)
               [Label "BGT"; LegendImage (Some "wms?LAYERS=a,b,c"%string)]))
       = repeat (getLegendUrl_of layer') 1.
Proof.
  destruct (update_shows_legend
              (demo_legend (demo_wms demo_attached None)
                 [Label "old"; LegendImage (Some "stale"%string)])
              (demo_legend (demo_wms demo_attached None)
                 [Label "BGT"; LegendImage (Some "wms?LAYERS=a,b,c"%string)])
              (demo_wms demo_attached None)
              {| WMS.getExtent := Some demo_extent |} eq_refl eq_refl)
    as (layer' & H1 & _ & H3).
  - vm_compute. reflexivity.
  - exists layer'. split; [exact H1 | exact H3].
Defined.

Lemma update_without_layer_demo :
  update {| getLayer := None; items := [Label "BGT"; LegendImage (Some "old"%string)] |}
  = Ok {| getLayer := None; items := [Label "BGT"; LegendImage (Some "old"%string)] |}
  /\ getLegendUrl
       {| getLayer := None; items := [Label "BGT"; LegendImage (Some "old"%string)] |}
     = TypeError
  /\ reconcileLegendItems
       {| getLayer := None; items := [Label "BGT"; LegendImage (Some "old"%string)] |}
     = TypeError.
Proof.
  exact (update_without_layer
           {| getLayer := None; items := [Label "BGT"; LegendImage (Some "old"%string)] |}
           eq_refl).
Defined.

Lemma legend_request_parameters_demo :
  newParams (demo_wms demo_attached None) demo_extent !! "FORMAT"%string = None
  /\ WMS.requestParams (demo_wms demo_attached None)
       (newParams (demo_wms demo_attached None) demo_extent) !! "REQUEST"%string
     = Some (WMS.PString "GetLegendGraphic")
  /\ WMS.requestParams (demo_wms demo_attached None)
       (newParams (demo_wms demo_attached None) demo_extent) !! "WIDTH"%string
     = Some (WMS.PNumber 600).
Proof.
  destruct (legend_request_parameters (demo_wms demo_attached None) demo_extent
              "FORMAT"%string) as (H1 & _ & H3 & H4 & _); try discriminate.
  split; [exact H1|]. split; [exact H3 | exact H4].
Defined.

End WMSLegendMore.
